(** * cchistory: the source patcher, the trace parser, the request selector,
      the content normaliser, the tool cataloguer and the report formatter.

    The development is in two parts.  Part I embeds the TypeScript sources
    ([src/core/cli-patcher.ts], [jsonl-parser.ts], [request-filter.ts],
    [content-extractor.ts], [output-formatter.ts], [types/request.ts]) as
    executable Rocq definitions.  Part II states and proves the properties.

    Conventions.  A JavaScript string is the list of its code units; the
    development covers code units below 256, written as [ascii].  Numbers that
    the code computes with (indices, lengths, comparator results, the brace
    depth) are [nat] or [Z].  A thrown exception is the [Throw] branch of
    [Result].  Built-ins whose body is not part of the repository
    ([JSON.parse], [JSON.stringify], [String.prototype.localeCompare]) are
    section variables. *)

From Stdlib Require Import ZArith List Ascii String Lia Permutation Sorted.
From Stdlib Require Import DecimalString DecimalNat DecimalFacts.
From stdpp Require Import base option list strings gmap.

#[local] Set Warnings "-register-all".
Local Open Scope Z_scope.
Local Open Scope nat_scope.
Local Open Scope list_scope.

(* ===================================================================== *)
(** * Part I.  The model                                                   *)
(* ===================================================================== *)

(** ** JavaScript primitives used by the sources *)

Module JS.

(** A string: its code units, in order. *)
Abbreviation jsstring := (list ascii).

(** A string literal of the source. *)
Definition lit (s : string) : jsstring := list_ascii_of_string s.
Arguments lit : simpl never.

(** The line feed, ["\n"] in the sources. *)
Definition LF : ascii := ascii_of_nat 10.

(** Thrown values.  [Error] is [new Error(message)]; [SyntaxError] is what
    [JSON.parse] throws on the text it could not decode. *)
Inductive Exception : Type :=
| Error (message : string)
| SyntaxError (input : jsstring).

(** A computation that returns or throws. *)
Inductive Result (A : Type) : Type :=
| Ok (value : A)
| Throw (exn : Exception).
Arguments Ok {A} value.
Arguments Throw {A} exn.

Definition bind {A B} (r : Result A) (k : A -> Result B) : Result B :=
  match r with
  | Ok a => k a
  | Throw e => Throw e
  end.

(** [xs.map(f)] when [f] can throw: elements are visited left to right and
    the first exception aborts the whole call. *)
Fixpoint mapThrowing {A B} (f : A -> Result B) (xs : list A) : Result (list B) :=
  match xs with
  | [] => Ok []
  | x :: xs' =>
      bind (f x) (fun y => bind (mapThrowing f xs') (fun ys => Ok (y :: ys)))
  end.

(** Truthiness of a string: every string but the empty one. *)
Definition truthy (s : jsstring) : bool :=
  match s with
  | [] => false
  | _ :: _ => true
  end.

(** [a || b] on strings. *)
Definition orElse (a : option jsstring) (b : jsstring) : jsstring :=
  match a with
  | Some s => if truthy s then s else b
  | None => b
  end.

(** WhiteSpace and LineTerminator code units (below 256): TAB, LF, VT, FF,
    CR, SP and NBSP.  This is the set stripped by [trim] and matched by the
    regular expression class [\s]. *)
Definition isWhiteSpace (c : ascii) : bool :=
  let n := nat_of_ascii c in
  (n =? 9) || (n =? 10) || (n =? 11) || (n =? 12) || (n =? 13)
  || (n =? 32) || (n =? 160).

Fixpoint trimStart (s : jsstring) : jsstring :=
  match s with
  | [] => []
  | c :: s' => if isWhiteSpace c then trimStart s' else s
  end.

Definition trimEnd (s : jsstring) : jsstring := rev (trimStart (rev s)).

Definition trim (s : jsstring) : jsstring := trimEnd (trimStart s).

(** [s.split(sep)] for a one-unit separator (the sources only split on
    ["\n"]).  The empty string splits into one empty piece. *)
Fixpoint split (sep : ascii) (s : jsstring) : list jsstring :=
  match s with
  | [] => [[]]
  | c :: s' =>
      if decide (c = sep) then [] :: split sep s'
      else match split sep s' with
           | piece :: pieces => (c :: piece) :: pieces
           | [] => [[c]]
           end
  end.

(** [xs.join(sep)]. *)
Fixpoint join (sep : jsstring) (xs : list jsstring) : jsstring :=
  match xs with
  | [] => []
  | x :: xs' =>
      match xs' with
      | [] => x
      | _ :: _ => x ++ sep ++ join sep xs'
      end
  end.

(** [s.startsWith(p)]. *)
Fixpoint startsWith (p s : jsstring) : bool :=
  match p, s with
  | [], _ => true
  | _ :: _, [] => false
  | a :: p', b :: s' => if decide (a = b) then startsWith p' s' else false
  end.

(** [s.indexOf(p)]: the least index at which [p] occurs, [None] for -1. *)
Fixpoint indexOfFrom (p s : jsstring) (i : nat) : option nat :=
  if startsWith p s then Some i
  else match s with
       | [] => None
       | _ :: s' => indexOfFrom p s' (S i)
       end.

Definition indexOf (p s : jsstring) : option nat := indexOfFrom p s 0.

(** [s.includes(p)]. *)
Definition includes (p s : jsstring) : bool :=
  match indexOf p s with
  | Some _ => true
  | None => false
  end.

(** [s.substring(a, b)] for [a <= b]; both ends are clamped to the length. *)
Definition substring (a b : nat) (s : jsstring) : jsstring :=
  take (b - a) (drop a s).

(** [s.toLowerCase()] on code units below 256: A-Z and the Latin-1 capital
    letters (all of 192..222 but the multiplication sign 215) move up by 32. *)
Definition lowerUnit (c : ascii) : ascii :=
  let n := nat_of_ascii c in
  if ((65 <=? n) && (n <=? 90))
     || ((192 <=? n) && (n <=? 222) && negb (n =? 215))
  then ascii_of_nat (n + 32)
  else c.

Definition toLowerCase (s : jsstring) : jsstring := map lowerUnit s.

(** [xs.sort(compare)].  The sort of the language is stable, and for a
    consistent comparator its result is the unique stable ordering; the
    model is the insertion sort that keeps an element in front of the
    later elements it does not exceed. *)
Section Sort.
Context {A : Type} (compare : A -> A -> Z).

Fixpoint insert (x : A) (sorted : list A) : list A :=
  match sorted with
  | [] => [x]
  | y :: rest =>
      if (0 <? compare x y)%Z then y :: insert x rest
      else x :: y :: rest
  end.

Fixpoint sort (xs : list A) : list A :=
  match xs with
  | [] => []
  | x :: xs' => insert x (sort xs')
  end.
End Sort.

(** Arrays are heap objects.  Where a claim depends on which array a
  method writes to, the arrays live in a store indexed by references. *)
Abbreviation ref := positive.

Section Arrays.
Context {A : Type}.

(** A stateful step over the store; [None] is a dangling reference, which
  no program of the language can produce. *)
Definition Stateful (R : Type) : Type :=
  gmap ref (list A) -> option (R * gmap ref (list A)).

Definition ret {R} (r : R) : Stateful R := fun h => Some (r, h).

Definition andThen {R S} (m : Stateful R) (k : R -> Stateful S) : Stateful S :=
  fun h => match m h with
           | Some (r, h') => k r h'
           | None => None
           end.

(** An array literal or any method that builds a new array. *)
Definition alloc (xs : list A) : Stateful ref :=
  fun h => let l := fresh (dom h) in Some (l, <[l := xs]> h).

Definition read (l : ref) : Stateful (list A) :=
  fun h => match h !! l with
           | Some xs => Some (xs, h)
           | None => None
           end.

(** [arr.filter(p)]: a new array, [arr] untouched. *)
Definition arrayFilter (p : A -> bool) (l : ref) : Stateful ref :=
  andThen (read l) (fun xs => alloc (List.filter p xs)).

(** [arr.sort(compare)]: sorts [arr] in place and returns [arr] itself. *)
Definition arraySort (compare : A -> A -> Z) (l : ref) : Stateful ref :=
  fun h => match h !! l with
           | Some xs => Some (l, <[l := sort compare xs]> h)
           | None => None
           end.
End Arrays.

End JS.
Import JS.

(** ** The data model ([src/types/request.ts])

    One module per interface, so that fields keep their names.  The fields
    that [request-filter.ts] reaches through optional chaining
    ([pair.request?.body?.model]) are options: a decoded line is cast to the
    interface without being checked against it. *)

(** A decoded number, kept as the decimal literal [mantissa * 10 ^ exponent]
    it was written as.  The core never computes with one. *)
Record number : Type := { mantissa : Z; exponent : Z }.

(** A decoded JSON document; the core never looks inside one. *)
Inductive JSON : Type :=
| JNull
| JBool (b : bool)
| JNumber (n : number)
| JString (s : jsstring)
| JArray (items : list JSON)
| JObject (fields : list (jsstring * JSON)).

Module CacheControl.
Record t : Type := { type : jsstring }.
End CacheControl.

Module Tool.
Record t : Type := {
  name : jsstring;
  description : jsstring;
  input_schema : JSON
}.
End Tool.

Module MessageContent.
Record t : Type := {
  type : jsstring;
  text : option jsstring;
  cache_control : option CacheControl.t
}.
End MessageContent.

(** [content: string | MessageContent[]]; [ContentOther] is any value of
    another shape, which the extractor handles explicitly. *)
Inductive Content : Type :=
| ContentString (s : jsstring)
| ContentArray (items : list MessageContent.t)
| ContentOther (v : JSON).

Module Message.
Record t : Type := {
  role : jsstring;
  content : Content
}.
End Message.

Module SystemBlock.
Record t : Type := {
  type : jsstring;
  text : jsstring;
  cache_control : option CacheControl.t
}.
End SystemBlock.

Module RequestBody.
Record t : Type := {
  model : option jsstring;
  messages : list Message.t;
  temperature : option number;
  system : option (list SystemBlock.t);
  tools : option (list Tool.t)
}.
End RequestBody.

Module Request.
Record t : Type := {
  timestamp : number;
  method : jsstring;
  url : jsstring;
  headers : list (jsstring * jsstring);
  body : option RequestBody.t
}.
End Request.

Module RequestResponsePair.
Record t : Type := {
  request : option Request.t;
  response : JSON
}.
End RequestResponsePair.

(** ** The source patcher ([src/core/cli-patcher.ts]) *)

Module CliPatcher.

Module PatchResult.
Record t : Type := {
  patched : bool;
  content : jsstring;
  message : option string
}.
End PatchResult.

Definition warningText : jsstring :=
  lit "It looks like your version of Claude Code".

Definition patchComment : jsstring :=
  lit " /* Version check disabled by patch */ }".

(** [for (let i = warningIndex; i >= 0; i--)] looking for
    [cliContent.substring(i, i + 8) === "function"]. *)
Fixpoint findFunctionIndex (cliContent : jsstring) (i : nat) : option nat :=
  if decide (substring i (i + 8) cliContent = lit "function") then Some i
  else match i with
       | O => None
       | S i' => findFunctionIndex cliContent i'
       end.

(** [for (let i = functionIndex; i < cliContent.length; i++)] looking for
    [cliContent[i] === "{"]; [rest] is the text from index [i] on. *)
Fixpoint scanOpenBrace (rest : jsstring) (i : nat) : option nat :=
  match rest with
  | [] => None
  | c :: rest' =>
      if decide (c = "{"%char) then Some i
      else scanOpenBrace rest' (S i)
  end.

Definition findOpenBraceIndex (cliContent : jsstring) (functionIndex : nat)
  : option nat :=
  scanOpenBrace (drop functionIndex cliContent) functionIndex.

(** [for (let i = openBraceIndex + 1; i < cliContent.length; i++)] with the
    running [braceCount]; [rest] is the text from index [i] on. *)
Fixpoint scanCloseBrace (rest : jsstring) (i : nat) (braceCount : Z)
  : option nat :=
  match rest with
  | [] => None
  | c :: rest' =>
      if decide (c = "{"%char) then
        scanCloseBrace rest' (S i) (braceCount + 1)%Z
      else if decide (c = "}"%char) then
        if decide ((braceCount - 1)%Z = 0%Z) then Some i
        else scanCloseBrace rest' (S i) (braceCount - 1)%Z
      else scanCloseBrace rest' (S i) braceCount
  end.

Definition findCloseBraceIndex (cliContent : jsstring) (openBraceIndex : nat)
  : option nat :=
  scanCloseBrace (drop (openBraceIndex + 1) cliContent) (openBraceIndex + 1) 1%Z.

Definition patchCliVersionCheck (cliContent : jsstring)
  : Result PatchResult.t :=
  match indexOf warningText cliContent with
  | None =>
      Ok {| PatchResult.patched := false;
            PatchResult.content := cliContent;
            PatchResult.message :=
              Some "Warning text not found - version check may not exist"%string |}
  | Some warningIndex =>
      match findFunctionIndex cliContent warningIndex with
      | None =>
          Throw (Error "Could not find function declaration before warning text")
      | Some functionIndex =>
          match findOpenBraceIndex cliContent functionIndex with
          | None =>
              Throw (Error "Could not find opening brace after function declaration")
          | Some openBraceIndex =>
              match findCloseBraceIndex cliContent openBraceIndex with
              | None => Throw (Error "Could not find matching closing brace")
              | Some closeBraceIndex =>
                  let functionDeclaration :=
                    substring functionIndex (openBraceIndex + 1) cliContent in
                  let patchedFunction := functionDeclaration ++ patchComment in
                  let patchedContent :=
                    substring 0 functionIndex cliContent
                    ++ patchedFunction
                    ++ drop (closeBraceIndex + 1) cliContent in
                  Ok {| PatchResult.patched := true;
                        PatchResult.content := patchedContent;
                        PatchResult.message :=
                          Some "Version check successfully patched"%string |}
              end
          end
      end
  end.

End CliPatcher.

(** ** The trace stream parser ([src/core/jsonl-parser.ts]) *)

Module JsonlParser.
Section WithJSON.

(** [JSON.parse(line) as RequestResponsePair]: the built-in decoder followed
    by the unchecked cast; it throws on text that is not well formed. *)
Variable JSON_parse : jsstring -> Result RequestResponsePair.t.

Definition nonBlank (line : jsstring) : bool := truthy (trim line).

Definition parseJsonl (content : jsstring) : Result (list RequestResponsePair.t) :=
  mapThrowing JSON_parse (List.filter nonBlank (split LF (trim content))).

End WithJSON.
End JsonlParser.

(** ** The request selector and the tool cataloguer
       ([src/core/request-filter.ts]) *)

Module RequestFilter.

(** [pair.request?.body] *)
Definition bodyOf (pair : RequestResponsePair.t) : option RequestBody.t :=
  match RequestResponsePair.request pair with
  | Some req => Request.body req
  | None => None
  end.

(** [pair.request?.body?.model] *)
Definition modelOf (pair : RequestResponsePair.t) : option jsstring :=
  match bodyOf pair with
  | Some b => RequestBody.model b
  | None => None
  end.

(** [pair.request?.body?.tools] *)
Definition toolsOf (pair : RequestResponsePair.t) : option (list Tool.t) :=
  match bodyOf pair with
  | Some b => RequestBody.tools b
  | None => None
  end.

(** [pair.request.body.system]; the selector reads it only from pairs that
    passed [filterNonHaikuRequests], whose request and body are present. *)
Definition systemOf (pair : RequestResponsePair.t)
  : option (list SystemBlock.t) :=
  match bodyOf pair with
  | Some b => RequestBody.system b
  | None => None
  end.

(** [model && !model.toLowerCase().includes("haiku")] *)
Definition isNonHaiku (pair : RequestResponsePair.t) : bool :=
  match modelOf pair with
  | Some model =>
      truthy model && negb (includes (lit "haiku") (toLowerCase model))
  | None => false
  end.

Definition filterNonHaikuRequests (pairs : list RequestResponsePair.t)
  : list RequestResponsePair.t :=
  List.filter isNonHaiku pairs.

(** The predicate of [filterRequestsWithTools]:
    [tools && Array.isArray(tools) && tools.length > 0] with
    [tools = pair.request?.body?.tools]. *)
Definition requestHasTools (pair : RequestResponsePair.t) : bool :=
  match toolsOf pair with
  | Some tools => 0 <? length tools
  | None => false
  end.

Definition filterRequestsWithTools (pairs : list RequestResponsePair.t)
  : list RequestResponsePair.t :=
  List.filter requestHasTools pairs.

(** The truthiness of [pair.request.body.system]: an array is truthy
    whatever its length, [undefined] is not. *)
Definition hasSystem (pair : RequestResponsePair.t) : bool :=
  match systemOf pair with
  | Some _ => true
  | None => false
  end.

(** [tools?.length || 0] *)
Definition toolCount (pair : RequestResponsePair.t) : Z :=
  match toolsOf pair with
  | Some tools => Z.of_nat (length tools)
  | None => 0%Z
  end.

(** The comparator of the sort: [(a, b) => count(b) - count(a)]. *)
Definition byToolCountDesc (a b : RequestResponsePair.t) : Z :=
  (toolCount b - toolCount a)%Z.

(** The candidates of the first tier, as [selectBestRequest] builds them. *)
Definition requestsWithToolsAndSystemPrompt (pairs : list RequestResponsePair.t)
  : list RequestResponsePair.t :=
  List.filter hasSystem (filterRequestsWithTools (filterNonHaikuRequests pairs)).

(** The array that is sorted is the fresh result of [filter] and does not
    leave the function, so the sort is modelled on its value. *)
Definition selectBestRequest (pairs : list RequestResponsePair.t)
  : Result RequestResponsePair.t :=
  let nonHaikuPairs := filterNonHaikuRequests pairs in
  match requestsWithToolsAndSystemPrompt pairs with
  | first :: others =>
      let sorted := sort byToolCountDesc (first :: others) in
      Ok (hd first sorted)
  | [] =>
      match nonHaikuPairs with
      | fallback :: _ => Ok fallback
      | [] => Throw (Error "No non-Haiku request found in the log")
      end
  end.

Section WithLocale.

(** [a.localeCompare(b)]: negative, zero or positive. *)
Variable localeCompare : jsstring -> jsstring -> Z.

Definition isNotMcp (tool : Tool.t) : bool :=
  negb (startsWith (lit "mcp__") (Tool.name tool)).

Definition byName (a b : Tool.t) : Z :=
  localeCompare (Tool.name a) (Tool.name b).

(** [tools] is a reference to the caller's array, or [undefined]. *)
Definition filterAndSortTools (tools : option ref) : @Stateful Tool.t ref :=
  match tools with
  | None => alloc []
  | Some arr => andThen (arrayFilter isNotMcp arr) (arraySort byName)
  end.

End WithLocale.
End RequestFilter.

(** ** The content normaliser ([src/core/content-extractor.ts]) *)

Module ContentExtractor.

Definition isTextItem (item : MessageContent.t) : bool :=
  bool_decide (MessageContent.type item = lit "text").

Definition extractUserMessage (message : option Message.t) : jsstring :=
  match message with
  | None => []
  | Some m =>
      match Message.content m with
      | ContentString s => s
      | ContentArray items =>
          join [LF]
            (map (fun item => orElse (MessageContent.text item) [])
                 (List.filter isTextItem items))
      | ContentOther _ => []
      end
  end.

Definition isTextBlock (s : SystemBlock.t) : bool :=
  bool_decide (SystemBlock.type s = lit "text").

Definition extractSystemPrompt (body : RequestBody.t) : jsstring :=
  join [LF]
    (map SystemBlock.text
         (List.filter isTextBlock (default [] (RequestBody.system body)))).

Definition isUser (msg : Message.t) : bool :=
  bool_decide (Message.role msg = lit "user").

Definition findAndExtractUserMessage (messages : list Message.t) : jsstring :=
  extractUserMessage (List.find isUser messages).

End ContentExtractor.

(** ** The report formatter ([src/core/output-formatter.ts]) *)

Module OutputFormatter.

Module OutputData.
Record t : Type := {
  versionLabel : jsstring;
  releaseDate : jsstring;
  userMessage : jsstring;
  systemPrompt : jsstring;
  tools : list Tool.t
}.
End OutputData.

(** The greedy [#+] of the pattern: what is left after the leading hashes. *)
Fixpoint afterHashes (s : jsstring) : jsstring :=
  match s with
  | [] => []
  | c :: s' => if decide (c = "#"%char) then afterHashes s' else s
  end.

(** [line.match(/^(#+)(\s+)/)] as a truth value.  The two classes are
    disjoint, so the greedy match of [#+] is the only candidate. *)
Definition matchesHeader (line : jsstring) : bool :=
  match line with
  | c :: rest =>
      if decide (c = "#"%char) then
        match afterHashes rest with
        | w :: _ => isWhiteSpace w
        | [] => false
        end
      else false
  | [] => false
  end.

Definition indentLine (line : jsstring) : jsstring :=
  if matchesHeader line then "#"%char :: line else line.

Definition indentHeaders (text : jsstring) : jsstring :=
  join [LF] (map indentLine (split LF text)).

Section WithJSON.

(** [JSON.stringify(value, null, indent)] *)
Variable JSON_stringify : JSON -> nat -> jsstring.

Definition formatTool (tool : Tool.t) : jsstring :=
  let schemaStr := JSON_stringify (Tool.input_schema tool) 2 in
  let indentedDescription :=
    indentHeaders (indentHeaders (Tool.description tool)) in
  lit "## " ++ Tool.name tool ++ [LF; LF] ++ indentedDescription
  ++ [LF] ++ schemaStr.

Definition toolSeparator : jsstring := [LF; LF] ++ lit "---" ++ [LF; LF].

Definition formatTools (tools : list Tool.t) : jsstring :=
  join toolSeparator (map formatTool tools).

Definition formatOutput (data : OutputData.t) : jsstring :=
  let toolsSection := formatTools (OutputData.tools data) in
  lit "# Claude Code Version " ++ OutputData.versionLabel data ++ [LF; LF]
  ++ lit "Release Date: " ++ OutputData.releaseDate data ++ [LF; LF]
  ++ lit "# User Message" ++ [LF; LF]
  ++ indentHeaders (OutputData.userMessage data) ++ [LF; LF]
  ++ lit "# System Prompt" ++ [LF; LF]
  ++ indentHeaders (OutputData.systemPrompt data) ++ [LF; LF]
  ++ lit "# Tools" ++ [LF; LF]
  ++ toolsSection ++ [LF].

End WithJSON.
End OutputFormatter.

(** ** The exported tool check ([src/core/request-filter.ts], [hasTools]) *)

Module RequestFilterExports.

(** [!!pair.request.body.tools && Array.isArray(...) && tools.length > 0].
    Unlike the predicate of [filterRequestsWithTools], the export reads
    [pair.request.body] without optional chaining: on a pair without request
    or without body the read throws a TypeError, which is [None] here. *)
Definition hasTools (pair : RequestResponsePair.t) : option bool :=
  match RequestResponsePair.request pair with
  | None => None
  | Some req =>
      match Request.body req with
      | None => None
      | Some body =>
          match RequestBody.tools body with
          | Some tools => Some (0 <? length tools)
          | None => Some false
          end
      end
  end.

End RequestFilterExports.

(** ** The version comparator ([src/core/version-utils.ts]) *)

Module VersionUtils.

(** The numbers the comparator works with: an integer or NaN.  [parseInt]
    and the subtraction are exact as long as the integers stay below 2^53
    in absolute value, which is the range the properties are stated for. *)
Inductive number : Type :=
| NaN
| Int (z : Z).

Definition isDigit (c : ascii) : bool :=
  let n := nat_of_ascii c in (48 <=? n) && (n <=? 57).

Definition digitValue (c : ascii) : Z := Z.of_nat (nat_of_ascii c - 48).

(** The value of the leading decimal digits of [s], continuing from [acc]. *)
Fixpoint digitsValue (acc : Z) (s : jsstring) : Z :=
  match s with
  | [] => acc
  | c :: s' =>
      if isDigit c then digitsValue (10 * acc + digitValue c)%Z s' else acc
  end.

(** [parseInt(input, 10)]: leading white space is skipped, one sign is
    read, then the longest run of decimal digits; without a digit the result
    is NaN.  [None] is [undefined], whose string has no digit. *)
Definition parseInt (input : option jsstring) : number :=
  match input with
  | None => NaN
  | Some str =>
      let s := trimStart str in
      let '(negative, rest) :=
        match s with
        | c :: r =>
            if decide (c = "-"%char) then (true, r)
            else if decide (c = "+"%char) then (false, r)
            else (false, s)
        | [] => (false, s)
        end in
      match rest with
      | c :: _ =>
          if isDigit c
          then Int (if negative : bool then - digitsValue 0 rest
                    else digitsValue 0 rest)%Z
          else NaN
      | [] => NaN
      end
  end.

Module Version.
Record t : Type := {
  major : number;
  minor : number;
  patch : number
}.
End Version.

Definition parseVersion (version : jsstring) : Version.t :=
  let parts := split "."%char version in
  {| Version.major := parseInt (parts !! 0);
     Version.minor := parseInt (parts !! 1);
     Version.patch := parseInt (parts !! 2) |}.

(** [a !== b] on numbers: NaN differs from everything, itself included. *)
Definition strictNotEqual (a b : number) : bool :=
  match a, b with
  | Int x, Int y => negb (x =? y)%Z
  | _, _ => true
  end.

(** [a - b] *)
Definition minus (a b : number) : number :=
  match a, b with
  | Int x, Int y => Int (x - y)
  | _, _ => NaN
  end.

Definition compareVersions (a b : jsstring) : number :=
  let va := parseVersion a in
  let vb := parseVersion b in
  if strictNotEqual (Version.major va) (Version.major vb)
  then minus (Version.major va) (Version.major vb)
  else if strictNotEqual (Version.minor va) (Version.minor vb)
  then minus (Version.minor va) (Version.minor vb)
  else minus (Version.patch va) (Version.patch vb).

End VersionUtils.

(** ** The version range ([src/services/npm-service.ts],
       [getAllVersionsBetween]) *)

Module NpmService.
Import VersionUtils.

(** [n >= 0] and [n <= 0]: false on NaN. *)
Definition atLeastZero (n : number) : bool :=
  match n with
  | Int z => (0 <=? z)%Z
  | NaN => false
  end.

Definition atMostZero (n : number) : bool :=
  match n with
  | Int z => (z <=? 0)%Z
  | NaN => false
  end.

Definition inRange (startVersion endVersion v : jsstring) : bool :=
  atLeastZero (compareVersions v startVersion)
  && atMostZero (compareVersions v endVersion).

Section WithSort.

(** [Array.prototype.sort(comparefn)] on an array of strings.  The
    comparator of this function answers NaN on versions with a component
    that is not a number; the order that [sort] gives is then left to the
    engine, so the built-in is a parameter here and not a sort of this
    development. *)
Variable Array_sort :
  (jsstring -> jsstring -> number) -> list jsstring -> list jsstring.

(** [npmAnswer] is the decoded answer of [npm view ... versions --json], or
    [None] when the command or the decoding failed; then the function ends
    the process instead of returning.  The list that is sorted is the fresh
    result of [filter]. *)
Definition getAllVersionsBetween (npmAnswer : option (list jsstring))
    (startVersion endVersion : jsstring) : option (list jsstring) :=
  match npmAnswer with
  | None => None
  | Some allVersions =>
      Some (Array_sort compareVersions
              (List.filter (inRange startVersion endVersion) allVersions))
  end.

End WithSort.

End NpmService.

(* ===================================================================== *)
(** * Part I, continued.  The vocabulary of the properties                 *)
(* ===================================================================== *)

(** ** Occurrences of one string in another *)

(** [p] occurs in [s] starting at index [i]. *)
Definition OccursAt (p s : jsstring) (i : nat) : Prop :=
  exists pre post, s = pre ++ p ++ post /\ length pre = i.

Definition Contains (p s : jsstring) : Prop := exists i, OccursAt p s i.

(** [i] is the index of the first occurrence of [p] in [s]. *)
Definition FirstOccurrence (p s : jsstring) (i : nat) : Prop :=
  OccursAt p s i /\ forall j, j < i -> ~ OccursAt p s j.

(** ** The request selector *)

Module SelectorSpec.
Import RequestFilter.

(** A record survives the first step of the selector: its model identifier
    is there, is not the empty string, and does not mention haiku in any
    letter case. *)
Definition Survives (pair : RequestResponsePair.t) : Prop :=
  exists model,
    modelOf pair = Some model /\ model <> []
    /\ ~ Contains (lit "haiku") (toLowerCase model).

(** The first step as the specification words it: only a missing
    identifier and a haiku identifier are discarded. *)
Definition SurvivesAsStated (pair : RequestResponsePair.t) : Prop :=
  exists model,
    modelOf pair = Some model
    /\ ~ Contains (lit "haiku") (toLowerCase model).

Definition HasNonEmptyTools (pair : RequestResponsePair.t) : Prop :=
  exists tools, toolsOf pair = Some tools /\ tools <> [].

(** The system-block list is there; it may be empty. *)
Definition HasSystemField (pair : RequestResponsePair.t) : Prop :=
  exists blocks, systemOf pair = Some blocks.

(** The condition on the system-block list as the specification words it. *)
Definition HasNonEmptySystem (pair : RequestResponsePair.t) : Prop :=
  exists blocks, systemOf pair = Some blocks /\ blocks <> [].

(** The length of the tool list of a record (0 when there is none). *)
Definition toolListLength (pair : RequestResponsePair.t) : nat :=
  length (default [] (toolsOf pair)).

(** *** Sample captures *)

Definition sampleTool (name : string) : Tool.t :=
  {| Tool.name := lit name;
     Tool.description := lit "desc";
     Tool.input_schema := JObject [(lit "type", JString (lit "object"))] |}.

Definition sampleSystemBlock (text : string) : SystemBlock.t :=
  {| SystemBlock.type := lit "text";
     SystemBlock.text := lit text;
     SystemBlock.cache_control := None |}.

Definition samplePair (timestamp : Z) (model : option string)
    (system : option (list SystemBlock.t)) (tools : option (list Tool.t))
  : RequestResponsePair.t :=
  {| RequestResponsePair.request :=
       Some {| Request.timestamp := {| mantissa := timestamp; exponent := 0 |};
               Request.method := lit "POST";
               Request.url := lit "/";
               Request.headers := [];
               Request.body :=
                 Some {| RequestBody.model := lit <$> model;
                         RequestBody.messages := [];
                         RequestBody.temperature := None;
                         RequestBody.system := system;
                         RequestBody.tools := tools |} |};
     RequestResponsePair.response := JObject [] |}.

(** A plain call without tools, then a call with one tool and an empty
    system-block list. *)
Definition plainPair : RequestResponsePair.t :=
  samplePair 1 (Some "claude-sonnet") None None.

Definition emptySystemPair : RequestResponsePair.t :=
  samplePair 2 (Some "claude-sonnet") (Some []) (Some [sampleTool "tool1"]).

Definition emptySystemCapture : list RequestResponsePair.t :=
  [plainPair; emptySystemPair].

(** A call whose model identifier is the empty string. *)
Definition emptyModelPair : RequestResponsePair.t :=
  samplePair 1 (Some EmptyString) None None.

(** Two calls with tools and system prompt and the same number of tools,
    after a smaller one and a haiku call with more tools. *)
Definition tiedCapture : list RequestResponsePair.t :=
  [ samplePair 1 (Some "claude-3-haiku") (Some [sampleSystemBlock "s"])
      (Some [sampleTool "a"; sampleTool "b"; sampleTool "c"]);
    samplePair 2 (Some "claude-sonnet") (Some [sampleSystemBlock "s"])
      (Some [sampleTool "a"]);
    samplePair 3 (Some "claude-sonnet") (Some [sampleSystemBlock "s"])
      (Some [sampleTool "a"; sampleTool "b"]);
    samplePair 4 (Some "claude-sonnet") (Some [sampleSystemBlock "s"])
      (Some [sampleTool "c"; sampleTool "d"]) ].

End SelectorSpec.

(** ** The trace stream parser *)

Module ParserSpec.
Import JsonlParser.


End ParserSpec.

(** ** The content normaliser *)

Module ExtractorSpec.

(** The texts of the blocks tagged "text", a missing text read as the empty
    string, in block order. *)
Fixpoint textsOfBlocks (items : list MessageContent.t) : list jsstring :=
  match items with
  | [] => []
  | item :: rest =>
      if decide (MessageContent.type item = lit "text")
      then default [] (MessageContent.text item) :: textsOfBlocks rest
      else textsOfBlocks rest
  end.

Definition textBlock (text : string) : MessageContent.t :=
  {| MessageContent.type := lit "text";
     MessageContent.text := Some (lit text);
     MessageContent.cache_control := None |}.

Definition imageBlock : MessageContent.t :=
  {| MessageContent.type := lit "image";
     MessageContent.text := None;
     MessageContent.cache_control := None |}.

Definition userMessage (content : Content) : option Message.t :=
  Some {| Message.role := lit "user"; Message.content := content |}.

End ExtractorSpec.

(** ** The report formatter *)

Module FormatterSpec.

(** A line the formatter treats as a header: one or more ['#'], then a
    white-space unit, then anything. *)
Definition IsHeaderLine (line : jsstring) : Prop :=
  exists n w rest,
    line = replicate (S n) "#"%char ++ w :: rest /\ isWhiteSpace w = true.

(** What happens to one line. *)
Definition Reindented (line line' : jsstring) : Prop :=
  (IsHeaderLine line -> line' = "#"%char :: line)
  /\ (~ IsHeaderLine line -> line' = line).

(** What happens to a text: its lines stay in their places, each one
    reindented. *)
Definition HeadersReindented (text text' : jsstring) : Prop :=
  Forall2 Reindented (split LF text) (split LF text').

(** The horizontal rule that stands between two tools. *)
Definition horizontalRule : jsstring := [LF; LF] ++ lit "---" ++ [LF; LF].

Section Report.

Variable JSON_stringify : JSON -> nat -> jsstring.

(** One tool in the report: a subheading with its name, its description
    with the headers reindented twice, and its input schema as
    [JSON.stringify] prints it with an indentation of two. *)
Definition RendersAs (tool : Tool.t) (text : jsstring) : Prop :=
  exists once twice,
    HeadersReindented (Tool.description tool) once
    /\ HeadersReindented once twice
    /\ text = lit "## " ++ Tool.name tool ++ [LF; LF] ++ twice ++ [LF]
              ++ JSON_stringify (Tool.input_schema tool) 2.

(** The content of the tools section: nothing for the empty list, else
    the tools in their order with the rule between two of them. *)
Inductive ToolsSection : list Tool.t -> jsstring -> Prop :=
| tools_none : ToolsSection [] []
| tools_last tool text :
    RendersAs tool text -> ToolsSection [tool] text
| tools_more tool next others text rest :
    RendersAs tool text ->
    ToolsSection (next :: others) rest ->
    ToolsSection (tool :: next :: others) (text ++ horizontalRule ++ rest).

End Report.

End FormatterSpec.

(** ** The tool cataloguer *)

Module CatalogueSpec.

(** The name of the tool begins with the reserved prefix. *)
Definition IsMcp (tool : Tool.t) : Prop :=
  exists rest, Tool.name tool = lit "mcp__" ++ rest.

(** [a] is not after [b] under the comparison of names. *)
Definition NameLe (compare : jsstring -> jsstring -> Z) (a b : Tool.t) : Prop :=
  (compare (Tool.name a) (Tool.name b) <= 0)%Z.

Definition namedTool (name : string) : Tool.t :=
  {| Tool.name := lit name;
     Tool.description := [];
     Tool.input_schema := JObject [] |}.

(** A comparison to run the cataloguer with: by the first code unit. *)
Definition firstUnit (s : jsstring) : Z :=
  match s with
  | [] => 0%Z
  | c :: _ => Z.of_nat (nat_of_ascii c)
  end.

Definition firstUnitCompare (a b : jsstring) : Z :=
  (firstUnit a - firstUnit b)%Z.

End CatalogueSpec.

(** ** The source patcher *)

Module PatcherSpec.
Import CliPatcher.

Definition functionToken : jsstring := lit "function".

(** The depth-counted scan: up on an opening brace, down on a closing one. *)
Definition depthStep (depth : Z) (c : ascii) : Z :=
  if decide (c = "{"%char) then (depth + 1)%Z
  else if decide (c = "}"%char) then (depth - 1)%Z
  else depth.

Definition depthAfter (depth : Z) (piece : jsstring) : Z :=
  foldl depthStep depth piece.

(** The depth once the scan that starts after the brace at [o], at depth 1,
    has read the units up to index [k] (excluded). *)
Definition depthAt (text : jsstring) (o k : nat) : Z :=
  depthAfter 1 (substring (o + 1) k text).

(** (a) no "function" token starts at or before index [w]. *)
Definition NoFunctionBefore (text : jsstring) (w : nat) : Prop :=
  forall j, j <= w -> ~ OccursAt functionToken text j.

(** [f] is where the nearest "function" token at or before [w] starts. *)
Definition NearestFunctionBefore (text : jsstring) (w f : nat) : Prop :=
  f <= w /\ OccursAt functionToken text f
  /\ forall j, f < j <= w -> ~ OccursAt functionToken text j.

(** (b) no opening brace at index [f] or later. *)
Definition NoOpenBraceFrom (text : jsstring) (f : nat) : Prop :=
  forall j, f <= j -> text !! j <> Some "{"%char.

(** [o] is the index of the first opening brace at index [f] or later. *)
Definition FirstOpenBraceFrom (text : jsstring) (f o : nat) : Prop :=
  f <= o /\ text !! o = Some "{"%char
  /\ forall j, f <= j < o -> text !! j <> Some "{"%char.

(** (c) the scan reads the text to its end and the depth is never 0. *)
Definition ScanExhausts (text : jsstring) (o : nat) : Prop :=
  forall k, o < k <= length text -> depthAt text o k <> 0%Z.

(** The depth is 0 for the first time once the unit at [c] has been read. *)
Definition ClosesAt (text : jsstring) (o c : nat) : Prop :=
  o < c < length text
  /\ depthAt text o (c + 1) = 0%Z
  /\ forall k, o < k <= c -> depthAt text o k <> 0%Z.

(** The five ways a call can go. *)
Inductive Outcome : Type :=
| MarkerAbsent
| NoEnclosingFunction
| NoOpeningBrace
| UnbalancedBraces
| Rewritten (functionIndex openBraceIndex closeBraceIndex : nat).

Inductive Classify (text : jsstring) : Outcome -> Prop :=
| classify_absent :
    ~ Contains warningText text ->
    Classify text MarkerAbsent
| classify_no_function w :
    FirstOccurrence warningText text w ->
    NoFunctionBefore text w ->
    Classify text NoEnclosingFunction
| classify_no_brace w f :
    FirstOccurrence warningText text w ->
    NearestFunctionBefore text w f ->
    NoOpenBraceFrom text f ->
    Classify text NoOpeningBrace
| classify_unbalanced w f o :
    FirstOccurrence warningText text w ->
    NearestFunctionBefore text w f ->
    FirstOpenBraceFrom text f o ->
    ScanExhausts text o ->
    Classify text UnbalancedBraces
| classify_rewritten w f o c :
    FirstOccurrence warningText text w ->
    NearestFunctionBefore text w f ->
    FirstOpenBraceFrom text f o ->
    ClosesAt text o c ->
    Classify text (Rewritten f o c).

Definition unpatched (text : jsstring) : PatchResult.t :=
  {| PatchResult.patched := false;
     PatchResult.content := text;
     PatchResult.message :=
       Some "Warning text not found - version check may not exist"%string |}.

Definition rewritten (content : jsstring) : PatchResult.t :=
  {| PatchResult.patched := true;
     PatchResult.content := content;
     PatchResult.message := Some "Version check successfully patched"%string |}.

(** What the call gives in each case. *)
Definition outcomeResult (text : jsstring) (outcome : Outcome)
  : Result PatchResult.t :=
  match outcome with
  | MarkerAbsent => Ok (unpatched text)
  | NoEnclosingFunction =>
      Throw (Error "Could not find function declaration before warning text")
  | NoOpeningBrace =>
      Throw (Error "Could not find opening brace after function declaration")
  | UnbalancedBraces => Throw (Error "Could not find matching closing brace")
  | Rewritten f o c =>
      Ok (rewritten (take f text ++ substring f (o + 1) text ++ patchComment
                     ++ drop (c + 1) text))
  end.

(** The three errors that the specification calls StructureError. *)
Definition StructureError (e : Exception) : Prop :=
  e = Error "Could not find function declaration before warning text"
  \/ e = Error "Could not find opening brace after function declaration"
  \/ e = Error "Could not find matching closing brace".

Definition StructureFailure (text : jsstring) : Prop :=
  Classify text NoEnclosingFunction
  \/ Classify text NoOpeningBrace
  \/ Classify text UnbalancedBraces.

(** Braces that match inside a piece of text: the depth never goes below
    where it started and is back there at the end. *)
Definition Balanced (body : jsstring) : Prop :=
  depthAfter 0 body = 0%Z /\ forall n, (0 <= depthAfter 0 (take n body))%Z.

(** The same, as a check that runs. *)
Fixpoint balancedFrom (depth : Z) (piece : jsstring) : bool :=
  match piece with
  | [] => (depth =? 0)%Z
  | c :: rest =>
      (0 <=? depthStep depth c)%Z && balancedFrom (depthStep depth c) rest
  end.

(** *** Sample scripts *)

Definition samplePre : jsstring := lit "const before = 1; ".
Definition sampleSig : jsstring := lit " checkVersion() ".
Definition sampleBody : jsstring :=
  lit " if (old) { console.log('It looks like your version of Claude Code is outdated'); } ".
Definition samplePost : jsstring := lit " const after = 2;".

Definition sampleScript : jsstring :=
  samplePre ++ (functionToken ++ sampleSig ++ ["{"%char])
  ++ sampleBody ++ "}"%char :: samplePost.

(** The same function with its last brace missing, and its rewritten form. *)
Definition unclosedScript : jsstring :=
  samplePre ++ (functionToken ++ sampleSig ++ ["{"%char]) ++ sampleBody.

Definition sampleRewritten : jsstring :=
  samplePre ++ (functionToken ++ sampleSig ++ ["{"%char])
  ++ patchComment ++ samplePost.





End PatcherSpec.

(* ===================================================================== *)
(** * Part I, continued.  Vocabulary and samples of the further properties *)
(* ===================================================================== *)

Module SelectorSamples.
Import SelectorSpec.

(** A call whose model identifier spells haiku in mixed case. *)
Definition mixedCaseHaikuPair : RequestResponsePair.t :=
  samplePair 5 (Some "claude-3-HaiKu-20240307") (Some [sampleSystemBlock "s"])
    (Some [sampleTool "a"; sampleTool "b"; sampleTool "c"]).

(** A decoded line without a request. *)
Definition bareResponse : RequestResponsePair.t :=
  {| RequestResponsePair.request := None;
     RequestResponsePair.response := JObject [] |}.

(** A call with tools but no system-block list. *)
Definition toolsOnlyPair : RequestResponsePair.t :=
  samplePair 6 (Some "claude-sonnet") None (Some [sampleTool "a"]).

End SelectorSamples.

Module CatalogueSamples.
Import CatalogueSpec.

(** Whether a tool has the given name. *)
Definition hasName (name : jsstring) (tool : Tool.t) : bool :=
  bool_decide (Tool.name tool = name).

(** Two tools of one name that differ in their description. *)
Definition describedTool (name description : string) : Tool.t :=
  {| Tool.name := lit name;
     Tool.description := lit description;
     Tool.input_schema := JObject [] |}.

Definition duplicateTools : list Tool.t :=
  [describedTool "b" "first"; describedTool "a" "only";
   describedTool "mcp__x" "dropped"; describedTool "b" "second"].

End CatalogueSamples.

Module ExtractorSamples.
Import ExtractorSpec.

(** The texts of the system blocks tagged "text", in block order. *)
Fixpoint systemTexts (blocks : list SystemBlock.t) : list jsstring :=
  match blocks with
  | [] => []
  | block :: rest =>
      if decide (SystemBlock.type block = lit "text")
      then SystemBlock.text block :: systemTexts rest
      else systemTexts rest
  end.

Definition bodyWithSystem (system : option (list SystemBlock.t)) : RequestBody.t :=
  {| RequestBody.model := Some (lit "claude-sonnet");
     RequestBody.messages := [];
     RequestBody.temperature := None;
     RequestBody.system := system;
     RequestBody.tools := None |}.

Definition message (role : string) (content : string) : Message.t :=
  {| Message.role := lit role; Message.content := ContentString (lit content) |}.

End ExtractorSamples.

Module ReportSpec.
Import OutputFormatter.

(** A line that is a header of level [level]: that many ['#'], then white
    space. *)
Definition HeaderOfLevel (level : nat) (line : jsstring) : Prop :=
  exists hashes w rest,
    level = S hashes
    /\ line = replicate (S hashes) "#"%char ++ w :: rest
    /\ isWhiteSpace w = true.

(** The horizontal rule between two tools, as lines. *)
Definition ruleLines : list jsstring := [[]; lit "---"; []].

Section WithJSON.

Variable JSON_stringify : JSON -> nat -> jsstring.

(** The lines of the description of a tool in the report. *)
Definition descriptionLines (tool : Tool.t) : list jsstring :=
  split LF (Nat.iter 2 indentHeaders (Tool.description tool)).

(** The lines of one tool in the report. *)
Definition toolLines (tool : Tool.t) : list jsstring :=
  [lit "## " ++ Tool.name tool; []]
  ++ descriptionLines tool
  ++ split LF (JSON_stringify (Tool.input_schema tool) 2).

End WithJSON.

(** A tool whose description has headers of the first two levels. *)
Definition headedTool : Tool.t :=
  {| Tool.name := lit "Read";
     Tool.description :=
       lit "# Usage" ++ [LF] ++ lit "## Notes" ++ [LF] ++ lit "plain";
     Tool.input_schema := JObject [] |}.

Definition headedReport : OutputData.t :=
  {| OutputData.versionLabel := lit "1.0.0";
     OutputData.releaseDate := lit "2025-01-01";
     OutputData.userMessage := lit "# Task" ++ [LF] ++ lit "do it";
     OutputData.systemPrompt := lit "# Tone" ++ [LF] ++ lit "## Style";
     OutputData.tools := [headedTool; headedTool] |}.

(** A stand-in for [JSON.stringify] in the samples. *)
Definition sampleStringify (value : JSON) (indent : nat) : jsstring :=
  lit "{}".

End ReportSpec.

Module VersionSpec.
Import VersionUtils NpmService.

(** The decimal digits of a natural number, as [String(n)] writes it. *)
Definition decimal (n : nat) : jsstring :=
  lit (NilEmpty.string_of_uint (Nat.to_uint n)).

(** ["major.minor.patch"] *)
Definition versionString (major minor patch : nat) : jsstring :=
  decimal major ++ "."%char :: decimal minor ++ "."%char :: decimal patch.

(** Something that may follow the digits of the patch number: nothing, or
    text that does not start with a digit (a prerelease tag, a further
    component). *)
Definition Suffix (suffix : jsstring) : Prop :=
  match suffix with
  | [] => True
  | c :: _ => isDigit c = false
  end.

(** Integers small enough for numbers to hold them and their differences
    exactly. *)
Definition Exact (z : Z) : Prop := (Z.abs z < 2 ^ 52)%Z.

(** The three components of [v] are the integers [major], [minor] and
    [patch]. *)
Definition Numeric (v : jsstring) (major minor patch : Z) : Prop :=
  parseVersion v
  = {| Version.major := Int major;
       Version.minor := Int minor;
       Version.patch := Int patch |}
  /\ Exact major /\ Exact minor /\ Exact patch.

(** A number as [parseInt] gives it exactly: NaN, or an integer of the
    exact range. *)
Definition ExactNumber (n : number) : Prop :=
  match n with
  | Int z => Exact z
  | NaN => True
  end.

(** The components of [v] that are numbers are of the exact range. *)
Definition Representable (v : jsstring) : Prop :=
  ExactNumber (Version.major (parseVersion v))
  /\ ExactNumber (Version.minor (parseVersion v))
  /\ ExactNumber (Version.patch (parseVersion v)).

Definition IsNumeric (v : jsstring) : Prop :=
  exists major minor patch, Numeric v major minor patch.

(** The order on triples: by the first component, then the second, then the
    third. *)
Definition Before (a b : Z * Z * Z) : Prop :=
  let '(a1, a2, a3) := a in
  let '(b1, b2, b3) := b in
  (a1 < b1 \/ (a1 = b1 /\ (a2 < b2 \/ (a2 = b2 /\ a3 < b3))))%Z.

(** What a comparator says of two values, as [sort] reads its answer. *)
Definition Negative (n : number) : Prop := exists z, n = Int z /\ (z < 0)%Z.
Definition Zero (n : number) : Prop := n = Int 0.
Definition Positive (n : number) : Prop := exists z, n = Int z /\ (0 < z)%Z.

(** A consistent comparator for the values of [l], as the language defines
    it for [sort]: the answer is a number and not NaN, comparing as equal
    is reflexive, symmetric and transitive, and comparing as less and
    comparing as greater are transitive. *)
Definition ConsistentOn (compare : jsstring -> jsstring -> number)
    (l : list jsstring) : Prop :=
  (forall a b, a ∈ l -> b ∈ l -> compare a b <> NaN)
  /\ (forall a, a ∈ l -> Zero (compare a a))
  /\ (forall a b, a ∈ l -> b ∈ l -> Zero (compare a b) -> Zero (compare b a))
  /\ (forall a b c, a ∈ l -> b ∈ l -> c ∈ l ->
        Zero (compare a b) -> Zero (compare b c) -> Zero (compare a c))
  /\ (forall a b c, a ∈ l -> b ∈ l -> c ∈ l ->
        Negative (compare a b) -> Negative (compare b c) ->
        Negative (compare a c))
  /\ (forall a b c, a ∈ l -> b ∈ l -> c ∈ l ->
        Positive (compare a b) -> Positive (compare b c) ->
        Positive (compare a c)).

(** [compare a b <= 0]: [a] is not after [b]. *)
Definition NotAfterBy (compare : jsstring -> jsstring -> number)
    (a b : jsstring) : Prop :=
  exists z, compare a b = Int z /\ (z <= 0)%Z.

(** What the language promises of [sort]: the result has the elements of
    the array, each as often; and with a comparator that is consistent for
    them, no element of the result is after a later one. *)
Definition SortsArrays
    (Array_sort : (jsstring -> jsstring -> number) ->
                  list jsstring -> list jsstring) : Prop :=
  (forall compare l, Permutation (Array_sort compare l) l)
  /\ (forall compare l,
        ConsistentOn compare l ->
        StronglySorted (NotAfterBy compare) (Array_sort compare l)).

(** A sort to run the function with: stable insertion, an answer of NaN
    read as 0. *)
Definition sortOrder (n : number) : Z :=
  match n with
  | Int z => z
  | NaN => 0%Z
  end.

Definition insertionSort (compare : jsstring -> jsstring -> number)
    (l : list jsstring) : list jsstring :=
  sort (fun a b => sortOrder (compare a b)) l.

(** [compareVersions a b <= 0] and [compareVersions a b >= 0]. *)
Definition NotAfter (a b : jsstring) : Prop :=
  exists z, compareVersions a b = Int z /\ (z <= 0)%Z.

Definition NotBefore (a b : jsstring) : Prop :=
  exists z, compareVersions a b = Int z /\ (0 <= z)%Z.

End VersionSpec.

(* ===================================================================== *)
(** * Part II.  Properties                                                 *)
(* ===================================================================== *)

(** ** Facts about the primitives *)

Lemma startsWith_spec (p s : jsstring) :
  startsWith p s = true <-> exists post, s = p ++ post.
Proof.
  revert s. induction p as [|a p IH]; intros s; simpl.
  - split; [intros _; by exists s | done].
  - destruct s as [|b s].
    + split; [done | intros [post H]; discriminate].
    + destruct (decide (a = b)) as [->|Hne].
      * rewrite IH. split; intros [post H]; exists post; congruence.
      * split; [done | intros [post H]; congruence].
Qed.

Lemma occursAt_drop (p s : jsstring) (i : nat) :
  OccursAt p s i <-> i <= length s /\ startsWith p (drop i s) = true.
Proof.
  rewrite startsWith_spec. split.
  - intros (pre & post & -> & <-). split.
    + rewrite length_app. lia.
    + exists post. by rewrite drop_app_length.
  - intros [Hi [post Hpost]]. exists (take i s), post. split.
    + by rewrite <- Hpost, take_drop.
    + rewrite length_take. lia.
Qed.

Lemma occursAt_length (p s : jsstring) (i : nat) :
  OccursAt p s i -> i + length p <= length s.
Proof. intros (pre & post & -> & <-). rewrite !length_app. lia. Qed.

Lemma occursAt_substring (p s : jsstring) (i : nat) :
  p <> [] ->
  substring i (i + length p) s = p <-> OccursAt p s i.
Proof.
  intros Hp. unfold substring.
  replace (i + length p - i) with (length p) by lia. split.
  - intros H. exists (take i s), (drop (length p) (drop i s)). split.
    + rewrite <- H at 1. by rewrite !take_drop.
    + rewrite length_take. apply Nat.min_l.
      destruct (decide (i <= length s)) as [|Hgt]; [done|].
      rewrite drop_ge in H by lia. rewrite take_nil in H. congruence.
  - intros (pre & post & -> & <-).
    by rewrite drop_app_length, take_app_length.
Qed.

Lemma indexOfFrom_spec (p s : jsstring) (k : nat) :
  match indexOfFrom p s k with
  | Some i => k <= i /\ FirstOccurrence p s (i - k)
  | None => forall j, ~ OccursAt p s j
  end.
Proof.
  revert k. induction s as [|c s IH]; intros k; simpl.
  - destruct (startsWith p []) eqn:Hp.
    + split; [lia|]. replace (k - k) with 0 by lia. split; [|lia].
      apply occursAt_drop. simpl. split; [lia | done].
    + intros j [Hj Hs]%occursAt_drop. simpl in Hj.
      replace j with 0 in Hs by lia. simpl in Hs. congruence.
  - destruct (startsWith p (c :: s)) eqn:Hp.
    + split; [lia|]. replace (k - k) with 0 by lia. split; [|lia].
      apply occursAt_drop. simpl. split; [lia | done].
    + specialize (IH (S k)). destruct (indexOfFrom p s (S k)) as [i|].
      * destruct IH as [Hki [Hocc Hfirst]]. split; [lia|].
        replace (i - k) with (S (i - S k)) by lia. split.
        -- apply occursAt_drop. apply occursAt_drop in Hocc as [? ?].
           simpl. split; [lia | done].
        -- intros [|j] Hj [Hlen Hs]%occursAt_drop; simpl in *; [congruence|].
           apply (Hfirst j); [lia|]. apply occursAt_drop. split; [lia|done].
      * intros [|j] [Hlen Hs]%occursAt_drop; simpl in *; [congruence|].
        apply (IH j). apply occursAt_drop. split; [lia|done].
Qed.

Lemma firstOccurrence_unique (p s : jsstring) (i j : nat) :
  FirstOccurrence p s i -> FirstOccurrence p s j -> i = j.
Proof.
  intros [Hi Hi'] [Hj Hj'].
  destruct (Nat.lt_trichotomy i j) as [H|[H|H]]; [|done|].
  - by destruct (Hj' i).
  - by destruct (Hi' j).
Qed.

Lemma indexOf_Some (p s : jsstring) (i : nat) :
  indexOf p s = Some i <-> FirstOccurrence p s i.
Proof.
  unfold indexOf. pose proof (indexOfFrom_spec p s 0) as H.
  destruct (indexOfFrom p s 0) as [i'|].
  - destruct H as [_ H]. rewrite Nat.sub_0_r in H. split.
    + by intros [= <-].
    + intros Hi. f_equal. eapply firstOccurrence_unique; eauto.
  - split; [done|]. intros [Hocc _]. by destruct (H i).
Qed.

Lemma indexOf_None (p s : jsstring) :
  indexOf p s = None <-> ~ Contains p s.
Proof.
  unfold indexOf, Contains. pose proof (indexOfFrom_spec p s 0) as H.
  destruct (indexOfFrom p s 0) as [i'|].
  - destruct H as [_ [H _]]. split; [done|]. intros Hno. destruct Hno. eauto.
  - split; [|done]. intros _ [i Hi]. by destruct (H i).
Qed.

Lemma includes_spec (p s : jsstring) :
  includes p s = true <-> Contains p s.
Proof.
  unfold includes. destruct (indexOf p s) as [i|] eqn:H.
  - apply indexOf_Some in H as [H _]. split; [intros _; by exists i | done].
  - apply indexOf_None in H. split; [done | intros; by destruct H].
Qed.

(** *** The sort *)

Section SortFacts.
Context {A : Type} (compare : A -> A -> Z).

Lemma insert_Permutation (x : A) (l : list A) :
  Permutation (insert compare x l) (x :: l).
Proof.
  induction l as [|y l IH]; simpl; [done|].
  destruct (0 <? compare x y)%Z; [|done].
  rewrite IH. apply perm_swap.
Qed.

Lemma sort_Permutation (l : list A) : Permutation (sort compare l) l.
Proof.
  induction l as [|x l IH]; simpl; [done|].
  by rewrite insert_Permutation, IH.
Qed.

Lemma sort_length (l : list A) : length (sort compare l) = length l.
Proof. apply Permutation_length, sort_Permutation. Qed.

Lemma insert_StronglySorted (R : A -> A -> Prop) (x : A) (l : list A) :
  (forall a b, (0 < compare a b)%Z -> R b a) ->
  (forall a b, ~ (0 < compare a b)%Z -> R a b) ->
  (forall a b c, R a b -> R b c -> R a c) ->
  StronglySorted R l -> StronglySorted R (insert compare x l).
Proof.
  intros Hgt Hle Htrans. induction 1 as [|y l Hsorted IH Hall]; simpl.
  - by repeat constructor.
  - destruct (0 <? compare x y)%Z eqn:Hc.
    + apply Z.ltb_lt in Hc. constructor; [done|].
      apply Forall_forall. intros z Hz.
      apply list_elem_of_In in Hz.
      eapply Permutation_in in Hz; [|apply insert_Permutation].
      destruct Hz as [<-|Hz]; [by apply Hgt|].
      rewrite Forall_forall in Hall. apply Hall. by apply list_elem_of_In.
    + apply Z.ltb_ge in Hc. constructor; [by constructor|].
      assert (R x y) by (apply Hle; lia).
      constructor; [done|].
      eapply Forall_impl; [exact Hall|]. intros z Hz. by eapply Htrans.
Qed.

Lemma sort_StronglySorted (R : A -> A -> Prop) (l : list A) :
  (forall a b, (0 < compare a b)%Z -> R b a) ->
  (forall a b, ~ (0 < compare a b)%Z -> R a b) ->
  (forall a b c, R a b -> R b c -> R a c) ->
  StronglySorted R (sort compare l).
Proof.
  intros Hgt Hle Htrans. induction l as [|x l IH]; simpl.
  - constructor.
  - by apply insert_StronglySorted.
Qed.

End SortFacts.

(** The head of a descending sort by a numeric key: the first element that
    carries the largest key. *)
Lemma sort_desc_head {A : Type} (key : A -> Z) (l : list A) :
  l <> [] ->
  exists before best after rest,
    l = before ++ best :: after
    /\ sort (fun a b => (key b - key a)%Z) l = best :: rest
    /\ (forall r, r ∈ before -> (key r < key best)%Z)
    /\ (forall r, r ∈ after -> (key r <= key best)%Z).
Proof.
  induction l as [|x l IH]; [done|]. intros _.
  destruct l as [|y l].
  - exists [], x, [], []. simpl. repeat split; intros r Hr; inversion Hr.
  - destruct IH as (before & best & after & rest & Hl & Hsort & Hlt & Hle);
      [done|].
    change (sort _ (x :: y :: l))
      with (insert (fun a b => (key b - key a)%Z) x
                   (sort (fun a b => (key b - key a)%Z) (y :: l))).
    rewrite Hsort. simpl.
    destruct (0 <? key best - key x)%Z eqn:Hc.
    + apply Z.ltb_lt in Hc.
      exists (x :: before), best, after,
        (insert (fun a b => (key b - key a)%Z) x rest).
      rewrite Hl. repeat split; [|done].
      intros r [->|Hr]%elem_of_cons; [lia | by apply Hlt].
    + apply Z.ltb_ge in Hc.
      exists [], x, (y :: l), (best :: rest). repeat split.
      * intros r Hr. inversion Hr.
      * intros r Hr. rewrite Hl in Hr.
        apply elem_of_app in Hr as [Hr|Hr].
        -- apply Hlt in Hr. lia.
        -- apply elem_of_cons in Hr as [->|Hr]; [lia|]. apply Hle in Hr. lia.
Qed.

Lemma filter_head_split {A : Type} (f : A -> bool) (l : list A) x rest :
  List.filter f l = x :: rest ->
  exists before after,
    l = before ++ x :: after /\ f x = true
    /\ (forall y, y ∈ before -> f y = false)
    /\ rest = List.filter f after.
Proof.
  induction l as [|a l IH]; simpl; [done|].
  destruct (f a) eqn:Ha.
  - intros [= -> <-]. exists [], l. repeat split; [done|].
    intros y Hy. inversion Hy.
  - intros (before & after & -> & Hx & Hb & Hr)%IH.
    exists (a :: before), after. repeat split; [done| |done].
    intros y [->|Hy]%elem_of_cons; auto.
Qed.

Lemma filter_nil_iff {A : Type} (f : A -> bool) (l : list A) :
  List.filter f l = [] <-> forall x, x ∈ l -> f x = false.
Proof.
  induction l as [|a l IH]; simpl.
  - split; [intros _ x Hx; inversion Hx | done].
  - destruct (f a) eqn:Ha.
    + split; [done|]. intros H. specialize (H a). rewrite Ha in H.
      discriminate H. by left.
    + rewrite IH. split.
      * intros H x [->|Hx]%elem_of_cons; auto.
      * intros H x Hx. apply H. by right.
Qed.

Lemma elem_of_List_filter {A : Type} (f : A -> bool) (l : list A) x :
  x ∈ List.filter f l <-> x ∈ l /\ f x = true.
Proof. rewrite !list_elem_of_In. apply filter_In. Qed.

(** ** The request selector *)

Section Selector.
Import RequestFilter SelectorSpec.

Lemma isNonHaiku_spec (pair : RequestResponsePair.t) :
  isNonHaiku pair = true <-> Survives pair.
Proof.
  unfold isNonHaiku, Survives. destruct (modelOf pair) as [model|].
  - rewrite andb_true_iff, negb_true_iff. split.
    + intros [Ht Hh]. exists model. split; [done|]. split.
      * by destruct model.
      * rewrite <- includes_spec. congruence.
    + intros (model' & [= <-] & Hne & Hh). split.
      * by destruct model.
      * rewrite <- includes_spec in Hh. by destruct (includes _ _).
  - split; [done | by intros (? & ? & _)].
Qed.

Lemma requestHasTools_spec (pair : RequestResponsePair.t) :
  requestHasTools pair = true <-> HasNonEmptyTools pair.
Proof.
  unfold requestHasTools, HasNonEmptyTools. destruct (toolsOf pair) as [tools|].
  - rewrite Nat.ltb_lt. split.
    + intros H. exists tools. split; [done|]. destruct tools; simpl in H; [lia|done].
    + intros (tools' & [= <-] & Hne). destruct tools; simpl; [done|lia].
  - split; [done | by intros (? & ? & _)].
Qed.

Lemma hasSystem_spec (pair : RequestResponsePair.t) :
  hasSystem pair = true <-> HasSystemField pair.
Proof.
  unfold hasSystem, HasSystemField. destruct (systemOf pair) as [blocks|].
  - split; [by exists blocks | done].
  - split; [done | by intros [? ?]].
Qed.

Lemma toolCount_length (pair : RequestResponsePair.t) :
  toolCount pair = Z.of_nat (toolListLength pair).
Proof.
  unfold toolCount, toolListLength. by destruct (toolsOf pair).
Qed.

Lemma elem_of_filterNonHaikuRequests pairs r :
  r ∈ filterNonHaikuRequests pairs <-> r ∈ pairs /\ Survives r.
Proof.
  unfold filterNonHaikuRequests.
  by rewrite elem_of_List_filter, isNonHaiku_spec.
Qed.

Lemma elem_of_tier pairs r :
  r ∈ requestsWithToolsAndSystemPrompt pairs
  <-> r ∈ pairs /\ Survives r /\ HasNonEmptyTools r /\ HasSystemField r.
Proof.
  unfold requestsWithToolsAndSystemPrompt, filterRequestsWithTools.
  rewrite !elem_of_List_filter, elem_of_filterNonHaikuRequests.
  rewrite requestHasTools_spec, hasSystem_spec. tauto.
Qed.

Lemma List_filter_sublist {A : Type} (f : A -> bool) (l : list A) :
  sublist (List.filter f l) l.
Proof.
  induction l as [|a l IH]; simpl; [constructor|].
  destruct (f a); by constructor.
Qed.

(** The three exits of [selectBestRequest]. *)
Lemma selectBestRequest_cases (pairs : list RequestResponsePair.t) :
  let tier := requestsWithToolsAndSystemPrompt pairs in
  (exists before best after,
      tier = before ++ best :: after
      /\ selectBestRequest pairs = Ok best
      /\ (forall r, r ∈ before -> toolListLength r < toolListLength best)
      /\ (forall r, r ∈ after -> toolListLength r <= toolListLength best))
  \/ (tier = []
      /\ exists fallback others,
          filterNonHaikuRequests pairs = fallback :: others
          /\ selectBestRequest pairs = Ok fallback)
  \/ (tier = []
      /\ filterNonHaikuRequests pairs = []
      /\ selectBestRequest pairs
         = Throw (Error "No non-Haiku request found in the log")).
Proof.
  intros tier. unfold selectBestRequest. fold tier.
  destruct tier as [|first others] eqn:Htier.
  - right. destruct (filterNonHaikuRequests pairs) as [|fallback rest].
    + by right.
    + left. split; [done|]. by exists fallback, rest.
  - left.
    destruct (sort_desc_head toolCount (first :: others))
      as (before & best & after & rest & Hl & Hsort & Hlt & Hle); [done|].
    exists before, best, after. split; [done|].
    unfold byToolCountDesc. rewrite Hsort. simpl. split; [done|].
    split; intros r Hr.
    + apply Hlt in Hr. rewrite !toolCount_length in Hr. lia.
    + apply Hle in Hr. rewrite !toolCount_length in Hr. lia.
Qed.

Lemma elem_of_tier_survivors pairs r :
  r ∈ requestsWithToolsAndSystemPrompt pairs
  <-> r ∈ filterNonHaikuRequests pairs
      /\ HasNonEmptyTools r /\ HasSystemField r.
Proof.
  unfold requestsWithToolsAndSystemPrompt, filterRequestsWithTools.
  rewrite !elem_of_List_filter, requestHasTools_spec, hasSystem_spec. tauto.
Qed.

(** C1, as amended.  Among the records that the haiku and missing-model
    filter lets through, the first tier of [selectBestRequest] holds, in
    capture order, exactly those that have a non-empty tool list and have a
    system-block list (which may be empty).  When the tier is not empty the
    selector returns the member of it with the longest tool list, and among
    several of that length the one captured first: every record of the tier
    before the result has strictly fewer tools, every record after it has at
    most as many. *)
Theorem selectBestRequest_preferred_tier (pairs : list RequestResponsePair.t) :
  let survivors := filterNonHaikuRequests pairs in
  let tier := requestsWithToolsAndSystemPrompt pairs in
  (forall r, r ∈ tier
     <-> r ∈ survivors /\ HasNonEmptyTools r /\ HasSystemField r)
  /\ sublist tier survivors
  /\ (tier <> [] ->
      exists before best after,
        tier = before ++ best :: after
        /\ selectBestRequest pairs = Ok best
        /\ (forall r, r ∈ before -> toolListLength r < toolListLength best)
        /\ (forall r, r ∈ after -> toolListLength r <= toolListLength best)).
Proof.
  intros survivors tier. split; [apply elem_of_tier_survivors|]. split.
  - unfold tier, requestsWithToolsAndSystemPrompt, filterRequestsWithTools.
    etrans; apply List_filter_sublist.
  - intros Hne.
    destruct (selectBestRequest_cases pairs) as [H|[[H _]|[H _]]];
      [exact H | done | done].
Qed.

Lemma selectBestRequest_preferred_tier_witness :
  requestsWithToolsAndSystemPrompt tiedCapture <> []
  /\ exists before best after,
       requestsWithToolsAndSystemPrompt tiedCapture = before ++ best :: after
       /\ selectBestRequest tiedCapture = Ok best
       /\ (forall r, r ∈ before -> toolListLength r < toolListLength best)
       /\ (forall r, r ∈ after -> toolListLength r <= toolListLength best).
Proof.
  assert (requestsWithToolsAndSystemPrompt tiedCapture <> []) as Hne
    by (vm_compute; discriminate).
  split; [exact Hne|].
  exact (proj2 (proj2 (selectBestRequest_preferred_tier tiedCapture)) Hne).
Defined.

(** The tie of [tiedCapture] goes to the record captured first. *)
Example selectBestRequest_tie :
  selectBestRequest tiedCapture
  = Ok (samplePair 3 (Some "claude-sonnet") (Some [sampleSystemBlock "s"])
          (Some [sampleTool "a"; sampleTool "b"])).
Proof. vm_compute. reflexivity. Qed.

(** C1 as stated fails on [emptySystemCapture]: the second record has an
    empty system-block list, and yet it is in the first tier and is the
    record returned, ahead of the first surviving record. *)
Lemma selectBestRequest_empty_system_counterexample :
  systemOf emptySystemPair = Some []
  /\ selectBestRequest emptySystemCapture = Ok emptySystemPair
  /\ ~ (forall r,
          r ∈ requestsWithToolsAndSystemPrompt emptySystemCapture
          <-> r ∈ filterNonHaikuRequests emptySystemCapture
              /\ HasNonEmptyTools r /\ HasNonEmptySystem r).
Proof.
  split; [reflexivity|]. split; [vm_compute; reflexivity|].
  intros H. specialize (H emptySystemPair).
  assert (emptySystemPair ∈ requestsWithToolsAndSystemPrompt emptySystemCapture)
    as Hin by (vm_compute; apply list_elem_of_here).
  apply H in Hin as (_ & _ & blocks & Hb & Hne).
  vm_compute in Hb. congruence.
Qed.

(** C4, as amended.  [selectBestRequest] returns only records of the capture
    whose model identifier is there, is not the empty string and does not
    contain haiku in any letter case.  When the first tier is empty, the
    result is the first such record in capture order.  The selector throws
    exactly when the capture has no such record, and what it throws is the
    error "No non-Haiku request found in the log". *)
Theorem selectBestRequest_fallback (pairs : list RequestResponsePair.t) :
  (forall r, selectBestRequest pairs = Ok r -> r ∈ pairs /\ Survives r)
  /\ (requestsWithToolsAndSystemPrompt pairs = [] ->
      forall before r after,
        pairs = before ++ r :: after ->
        (forall x, x ∈ before -> ~ Survives x) ->
        Survives r ->
        selectBestRequest pairs = Ok r)
  /\ ((exists e, selectBestRequest pairs = Throw e)
      <-> forall r, r ∈ pairs -> ~ Survives r)
  /\ (forall e, selectBestRequest pairs = Throw e ->
      e = Error "No non-Haiku request found in the log").
Proof.
  pose proof (selectBestRequest_cases pairs) as Hcases. simpl in Hcases.
  assert (filterNonHaikuRequests pairs = []
          <-> forall r, r ∈ pairs -> ~ Survives r) as Hnone.
  { unfold filterNonHaikuRequests. rewrite filter_nil_iff.
    split; intros H r Hr.
    - rewrite <- isNonHaiku_spec, (H r Hr). discriminate.
    - apply not_true_is_false. rewrite isNonHaiku_spec. by apply H. }
  repeat split.
  - destruct Hcases as [(before & best & after & Ht & Hsel & _)
                       |[[_ (fb & others & Hf & Hsel)]|(_ & _ & Hsel)]];
      rewrite Hsel in H; try discriminate; injection H as <-.
    + assert (best ∈ requestsWithToolsAndSystemPrompt pairs) as Hin.
      { rewrite Ht. apply elem_of_app. right. by left. }
      by apply elem_of_tier in Hin as [? _].
    + assert (fb ∈ filterNonHaikuRequests pairs) as Hin
          by (rewrite Hf; by left).
      by apply elem_of_filterNonHaikuRequests in Hin as [? _].
  - destruct Hcases as [(before & best & after & Ht & Hsel & _)
                       |[[_ (fb & others & Hf & Hsel)]|(_ & _ & Hsel)]];
      rewrite Hsel in H; try discriminate; injection H as <-.
    + assert (best ∈ requestsWithToolsAndSystemPrompt pairs) as Hin.
      { rewrite Ht. apply elem_of_app. right. by left. }
      by apply elem_of_tier in Hin as (_ & ? & _).
    + assert (fb ∈ filterNonHaikuRequests pairs) as Hin
          by (rewrite Hf; by left).
      by apply elem_of_filterNonHaikuRequests in Hin as [_ ?].
  - intros Htier before r after -> Hbefore Hr.
    destruct Hcases as [(b & best & a & Ht & _)
                       |[[_ (fb & others & Hf & Hsel)]|(_ & Hf & _)]].
    + rewrite Htier in Ht. by destruct b.
    + rewrite Hsel. f_equal.
      unfold filterNonHaikuRequests in Hf.
      rewrite List.filter_app in Hf.
      assert (List.filter isNonHaiku before = []) as Hnil.
      { apply filter_nil_iff. intros x Hx. apply not_true_is_false.
        rewrite isNonHaiku_spec. by apply Hbefore. }
      rewrite Hnil in Hf. simpl in Hf. apply isNonHaiku_spec in Hr. rewrite Hr in Hf. congruence.
    + destruct (proj1 Hnone Hf r); [|done].
      apply elem_of_app. right. by left.
  - intros [e He].
    destruct Hcases as [(b & best & a & _ & Hsel & _)
                       |[[_ (fb & others & _ & Hsel)]|(_ & Hf & _)]];
      [congruence | congruence | exact (proj1 Hnone Hf)].
  - intros Hall. apply (proj2 Hnone) in Hall.
    destruct Hcases as [(b & best & a & Ht & _)
                       |[[_ (fb & others & Hf & _)]|(_ & _ & Hsel)]].
    + assert (best ∈ filterNonHaikuRequests pairs) as Hin.
      { assert (best ∈ requestsWithToolsAndSystemPrompt pairs) as Hin
          by (rewrite Ht; apply elem_of_app; right; by left).
        unfold requestsWithToolsAndSystemPrompt, filterRequestsWithTools in Hin.
        by apply elem_of_List_filter in Hin as [[? _]%elem_of_List_filter _]. }
      rewrite Hall in Hin. inversion Hin.
    + congruence.
    + eauto.
  - intros e He.
    destruct Hcases as [(b & best & a & _ & Hsel & _)
                       |[[_ (fb & others & _ & Hsel)]|(_ & _ & Hsel)]];
      congruence.
Qed.

Lemma selectBestRequest_fallback_witness :
  selectBestRequest [emptyModelPair; plainPair] = Ok plainPair.
Proof.
  refine (proj1 (proj2 (selectBestRequest_fallback [emptyModelPair; plainPair]))
            _ [emptyModelPair] plainPair [] eq_refl _ _).
  - vm_compute. reflexivity.
  - intros x ->%list_elem_of_singleton (model & Hm & Hne & _).
    vm_compute in Hm. congruence.
  - apply isNonHaiku_spec. vm_compute. reflexivity.
Defined.

(** C4 as stated fails on the capture that holds [emptyModelPair] alone:
    its model identifier is there and does not mention haiku, and still the
    selector throws. *)
Lemma selectBestRequest_empty_model_counterexample :
  SurvivesAsStated emptyModelPair
  /\ selectBestRequest [emptyModelPair]
     = Throw (Error "No non-Haiku request found in the log")
  /\ ~ ((exists e, selectBestRequest [emptyModelPair] = Throw e)
        <-> forall r, r ∈ [emptyModelPair] -> ~ SurvivesAsStated r).
Proof.
  assert (SurvivesAsStated emptyModelPair) as Hs.
  { exists []. split; [reflexivity|].
    rewrite <- includes_spec. vm_compute. discriminate. }
  split; [exact Hs|]. split; [vm_compute; reflexivity|].
  intros [H _]. destruct (H (ex_intro _ _ eq_refl) emptyModelPair); [by left|done].
Qed.

End Selector.

(** ** Lines: [split], [join] and [trim] *)

Lemma split_nonempty (sep : ascii) (s : jsstring) : split sep s <> [].
Proof.
  destruct s as [|c s]; simpl; [done|].
  destruct (decide (c = sep)); [done|]. by destruct (split sep s).
Qed.

Lemma join_cons (sep x : jsstring) (xs : list jsstring) :
  xs <> [] -> join sep (x :: xs) = x ++ sep ++ join sep xs.
Proof. by destruct xs. Qed.

Lemma join_split (sep : ascii) (s : jsstring) : join [sep] (split sep s) = s.
Proof.
  induction s as [|c s IH]; simpl; [done|].
  pose proof (split_nonempty sep s) as Hne.
  destruct (decide (c = sep)) as [->|Hc].
  - rewrite join_cons by done. simpl. by rewrite IH.
  - destruct (split sep s) as [|piece pieces]; [done|].
    destruct pieces as [|piece' pieces].
    + simpl in *. by rewrite IH.
    + rewrite <- IH. rewrite !(join_cons _ _ (piece' :: pieces)) by done.
      reflexivity.
Qed.

Lemma split_pieces (sep : ascii) (s : jsstring) :
  Forall (fun piece => sep ∉ piece) (split sep s).
Proof.
  induction s as [|c s IH]; simpl.
  - repeat constructor. apply not_elem_of_nil.
  - destruct (decide (c = sep)) as [->|Hne].
    + constructor; [apply not_elem_of_nil | done].
    + destruct (split sep s) as [|piece pieces].
      * repeat constructor. by intros ->%list_elem_of_singleton.
      * inversion IH as [|? ? Hp Hps]; subst. constructor; [|done].
        by intros [->|?]%elem_of_cons.
Qed.

Lemma split_no_sep (sep : ascii) (s : jsstring) :
  sep ∉ s -> split sep s = [s].
Proof.
  induction s as [|c s IH]; simpl; [done|].
  intros Hnot. destruct (decide (c = sep)) as [->|Hne].
  - destruct Hnot. by left.
  - rewrite IH; [done|]. intros ?. apply Hnot. by right.
Qed.

Lemma split_app_sep (sep : ascii) (piece rest : jsstring) :
  sep ∉ piece ->
  split sep (piece ++ sep :: rest) = piece :: split sep rest.
Proof.
  induction piece as [|c piece IH]; simpl; intros Hnot.
  - by rewrite decide_True.
  - rewrite decide_False by (intros ->; apply Hnot; by left).
    rewrite IH; [done|]. intros ?. apply Hnot. by right.
Qed.

(** Splitting what [join] built from separator-free pieces gives the
    pieces back. *)
Lemma split_join (sep : ascii) (pieces : list jsstring) :
  pieces <> [] ->
  Forall (fun piece => sep ∉ piece) pieces ->
  split sep (join [sep] pieces) = pieces.
Proof.
  induction pieces as [|piece pieces IH]; [done|]. intros _ Hall.
  inversion Hall as [|? ? Hp Hps]; subst.
  destruct pieces as [|piece' pieces].
  - simpl. by apply split_no_sep.
  - rewrite join_cons by done.
    change ([sep] ++ join [sep] (piece' :: pieces))
      with (sep :: join [sep] (piece' :: pieces)).
    rewrite split_app_sep by done. by rewrite IH.
Qed.


Lemma trimStart_all_white (s : jsstring) :
  Forall (fun c => isWhiteSpace c = true) s -> trimStart s = [].
Proof. induction 1 as [|c s Hc _ IH]; simpl; [done|]. by rewrite Hc. Qed.

Lemma trimStart_nil_inv (s : jsstring) :
  trimStart s = [] -> Forall (fun c => isWhiteSpace c = true) s.
Proof.
  induction s as [|c s IH]; simpl; [constructor|].
  destruct (isWhiteSpace c) eqn:Hc; [|done]. intros H. constructor; auto.
Qed.

Lemma trimEnd_snoc (s : jsstring) (c : ascii) :
  trimEnd (s ++ [c]) = if isWhiteSpace c then trimEnd s else s ++ [c].
Proof.
  unfold trimEnd. rewrite rev_app_distr. simpl.
  destruct (isWhiteSpace c); [done|]. simpl. by rewrite rev_involutive.
Qed.

Lemma trimStart_snoc_white (s : jsstring) (c : ascii) :
  isWhiteSpace c = true ->
  (trimStart s = [] /\ trimStart (s ++ [c]) = [])
  \/ trimStart (s ++ [c]) = trimStart s ++ [c].
Proof.
  intros Hc. induction s as [|a s IH]; simpl.
  - rewrite Hc. by left.
  - destruct (isWhiteSpace a); [done | by right].
Qed.

Lemma trim_cons_white (s : jsstring) (c : ascii) :
  isWhiteSpace c = true -> trim (c :: s) = trim s.
Proof. intros Hc. unfold trim. simpl. by rewrite Hc. Qed.

Lemma trim_snoc_white (s : jsstring) (c : ascii) :
  isWhiteSpace c = true -> trim (s ++ [c]) = trim s.
Proof.
  intros Hc. unfold trim.
  destruct (trimStart_snoc_white s c Hc) as [[-> ->]| ->]; [done|].
  by rewrite trimEnd_snoc, Hc.
Qed.

Lemma trim_all_white (s : jsstring) :
  Forall (fun c => isWhiteSpace c = true) s -> trim s = [].
Proof. intros H. unfold trim. by rewrite trimStart_all_white. Qed.

(** ** The trace stream parser *)

Section Parser.
Import JsonlParser ParserSpec.










Variable JSON_parse : jsstring -> Result RequestResponsePair.t.


(** C10.  On a capture made of white space only, the empty one included,
    [parseJsonl] returns the empty sequence, whatever the decoder; the
    failure comes from [selectBestRequest], which throws its own error on
    that sequence. *)
Theorem parseJsonl_blank_capture (content : jsstring) :
  Forall (fun c => isWhiteSpace c = true) content ->
  parseJsonl JSON_parse content = Ok []
  /\ bind (parseJsonl JSON_parse content) RequestFilter.selectBestRequest
     = Throw (Error "No non-Haiku request found in the log").
Proof.
  intros Hws. unfold parseJsonl. by rewrite trim_all_white.
Qed.

End Parser.

Lemma parseJsonl_blank_capture_witness :
  JsonlParser.parseJsonl (fun line => Throw (SyntaxError line))
    (lit "  " ++ [LF; LF] ++ lit " ") = Ok [].
Proof.
  refine (proj1 (parseJsonl_blank_capture _ _ _)).
  repeat constructor.
Defined.


(** ** The content normaliser *)

Section Extractor.
Import ContentExtractor ExtractorSpec.

Lemma extract_blocks_texts (items : list MessageContent.t) :
  map (fun item => orElse (MessageContent.text item) [])
      (List.filter isTextItem items)
  = textsOfBlocks items.
Proof.
  induction items as [|item items IH]; simpl; [done|].
  unfold isTextItem at 1. rewrite <- IH.
  destruct (decide (MessageContent.type item = lit "text")) as [Ht|Ht].
  - rewrite bool_decide_eq_true_2 by done. simpl. f_equal.
    destruct (MessageContent.text item) as [[|c t]|]; done.
  - by rewrite bool_decide_eq_false_2.
Qed.

Lemma textsOfBlocks_no_text (items : list MessageContent.t) :
  (forall item, item ∈ items -> MessageContent.type item <> lit "text") ->
  textsOfBlocks items = [].
Proof.
  induction items as [|item items IH]; simpl; [done|]. intros H.
  rewrite decide_False by (apply H; by left).
  apply IH. intros it Hit. apply H. by right.
Qed.

(** C6.  [extractUserMessage] is a total function to strings (it has no
    throwing branch).  An absent message gives the empty string; string
    content is returned as it is; list content gives the texts of the blocks
    tagged "text", a missing text read as the empty string, joined with line
    feeds, so a list without such a block, the empty list included, gives
    the empty string; content of any other shape gives the empty string.  On
    the two examples of the specification the results are "hi" and "a". *)
Theorem extractUserMessage_cases :
  extractUserMessage None = []
  /\ (forall role s,
        extractUserMessage
          (Some {| Message.role := role; Message.content := ContentString s |})
        = s)
  /\ (forall role items,
        extractUserMessage
          (Some {| Message.role := role; Message.content := ContentArray items |})
        = join [LF] (textsOfBlocks items))
  /\ (forall role items,
        (forall item, item ∈ items -> MessageContent.type item <> lit "text") ->
        extractUserMessage
          (Some {| Message.role := role; Message.content := ContentArray items |})
        = [])
  /\ (forall role,
        extractUserMessage
          (Some {| Message.role := role; Message.content := ContentArray [] |})
        = [])
  /\ (forall role v,
        extractUserMessage
          (Some {| Message.role := role; Message.content := ContentOther v |})
        = [])
  /\ extractUserMessage (userMessage (ContentString (lit "hi"))) = lit "hi"
  /\ extractUserMessage (userMessage (ContentArray [textBlock "a"; imageBlock]))
     = lit "a".
Proof.
  repeat split; try done.
  - intros role items. simpl. by rewrite extract_blocks_texts.
  - intros role items H. simpl.
    by rewrite extract_blocks_texts, textsOfBlocks_no_text.
Qed.

Lemma extractUserMessage_cases_witness :
  extractUserMessage (userMessage (ContentArray [imageBlock; imageBlock])) = [].
Proof.
  refine (proj1 (proj2 (proj2 (proj2 extractUserMessage_cases))) _ _ _).
  intros item Hitem.
  assert (item = imageBlock) as ->.
  { apply elem_of_cons in Hitem as [->|Hitem]; [done|].
    by apply list_elem_of_singleton in Hitem. }
  vm_compute. discriminate.
Defined.

End Extractor.

(** ** The report formatter *)

Section Formatter.
Import OutputFormatter FormatterSpec.

Lemma afterHashes_replicate (n : nat) (w : ascii) (rest : jsstring) :
  w <> "#"%char ->
  afterHashes (replicate n "#"%char ++ w :: rest) = w :: rest.
Proof.
  intros Hw. induction n as [|n IH]; simpl.
  - by rewrite decide_False.
  - done.
Qed.

Lemma afterHashes_split (s : jsstring) :
  exists n, s = replicate n "#"%char ++ afterHashes s.
Proof.
  induction s as [|c s [n IH]]; simpl.
  - by exists 0.
  - destruct (decide (c = "#"%char)) as [->|Hc].
    + exists (S n). simpl. by rewrite <- IH.
    + by exists 0.
Qed.

Lemma matchesHeader_spec (line : jsstring) :
  matchesHeader line = true <-> IsHeaderLine line.
Proof.
  split.
  - destruct line as [|c rest]; simpl; [done|].
    destruct (decide (c = "#"%char)) as [->|Hc]; [|done].
    destruct (afterHashes_split rest) as [n Hn].
    destruct (afterHashes rest) as [|w rest'] eqn:Ha; [done|].
    intros Hw. exists n, w, rest'. split; [|done]. simpl. by rewrite <- Hn.
  - intros (n & w & rest & -> & Hw). simpl.
    rewrite afterHashes_replicate; [done|]. by intros ->.
Qed.

Lemma indentLine_spec (line : jsstring) : Reindented line (indentLine line).
Proof.
  unfold Reindented, indentLine. rewrite <- matchesHeader_spec.
  destruct (matchesHeader line); split; done.
Qed.

Lemma indentLine_no_LF (line : jsstring) :
  LF ∉ line -> LF ∉ indentLine line.
Proof.
  unfold indentLine. destruct (matchesHeader line); [|done].
  intros Hl [Heq|Hin]%elem_of_cons; [discriminate | done].
Qed.

Lemma split_indentHeaders (text : jsstring) :
  split LF (indentHeaders text) = map indentLine (split LF text).
Proof.
  unfold indentHeaders. apply split_join.
  - pose proof (split_nonempty LF text). by destruct (split LF text).
  - apply Forall_map. eapply Forall_impl; [apply split_pieces|].
    intros line. apply indentLine_no_LF.
Qed.

(** C8.  [indentHeaders] works line by line: the lines of the result are
    the lines of the text, in order, where a line that starts with one or
    more ['#'] followed by a white-space unit has gained exactly one ['#'] in
    front and every other line is unchanged (a run of ['#'] followed by
    something else, or by nothing, included).  On "# H\nbody" the result is
    "## H\nbody", and applying the function again gives "### H\nbody". *)
Theorem indentHeaders_lines :
  (forall text,
      Forall2 Reindented (split LF text) (split LF (indentHeaders text)))
  /\ (forall text,
        indentHeaders text = join [LF] (split LF (indentHeaders text)))
  /\ indentHeaders (lit "# H" ++ [LF] ++ lit "body")
     = lit "## H" ++ [LF] ++ lit "body"
  /\ indentHeaders (indentHeaders (lit "# H" ++ [LF] ++ lit "body"))
     = lit "### H" ++ [LF] ++ lit "body"
  /\ indentHeaders (lit "#NoSpace") = lit "#NoSpace".
Proof.
  repeat split.
  - intros text. rewrite split_indentHeaders.
    apply Forall2_fmap_r, Forall_Forall2_diag, Forall_forall.
    intros line _. apply indentLine_spec.
  - intros text. by rewrite join_split.
Qed.

Lemma indentHeaders_reindented (text : jsstring) :
  HeadersReindented text (indentHeaders text).
Proof.
  unfold HeadersReindented. rewrite split_indentHeaders.
  apply Forall2_fmap_r, Forall_Forall2_diag, Forall_forall.
  intros line _. apply indentLine_spec.
Qed.

Lemma reindented_functional (line a b : jsstring) :
  Reindented line a -> Reindented line b -> a = b.
Proof.
  intros [Ha Ha'] [Hb Hb'].
  destruct (matchesHeader line) eqn:Hm.
  - apply matchesHeader_spec in Hm. by rewrite Ha, Hb.
  - assert (~ IsHeaderLine line) as Hno
        by (rewrite <- matchesHeader_spec; congruence).
    by rewrite Ha', Hb'.
Qed.

Lemma headersReindented_functional (text a b : jsstring) :
  HeadersReindented text a -> HeadersReindented text b -> a = b.
Proof.
  unfold HeadersReindented. intros Ha Hb.
  assert (split LF a = split LF b) as Hlines.
  { revert Ha Hb. generalize (split LF text) (split LF a) (split LF b).
    intros lines. induction lines as [|line lines IH];
      intros la lb Ha Hb; inversion Ha; inversion Hb; subst; [done|].
    f_equal; [by eapply reindented_functional | by apply IH]. }
  by rewrite <- (join_split LF a), <- (join_split LF b), Hlines.
Qed.

Variable JSON_stringify : JSON -> nat -> jsstring.

Lemma formatTool_renders (tool : Tool.t) :
  RendersAs JSON_stringify tool (formatTool JSON_stringify tool).
Proof.
  exists (indentHeaders (Tool.description tool)),
         (indentHeaders (indentHeaders (Tool.description tool))).
  split; [apply indentHeaders_reindented|].
  split; [apply indentHeaders_reindented | done].
Qed.

Lemma rendersAs_functional (tool : Tool.t) (a b : jsstring) :
  RendersAs JSON_stringify tool a -> RendersAs JSON_stringify tool b -> a = b.
Proof.
  intros (once & twice & Ho & Ht & ->) (once' & twice' & Ho' & Ht' & ->).
  rewrite (headersReindented_functional _ _ _ Ho Ho') in Ht.
  by rewrite (headersReindented_functional _ _ _ Ht Ht').
Qed.

Lemma formatTools_section (tools : list Tool.t) :
  ToolsSection JSON_stringify tools (formatTools JSON_stringify tools).
Proof.
  unfold formatTools.
  induction tools as [|tool [|next others] IH].
  - constructor.
  - constructor. apply formatTool_renders.
  - cbn [map] in *. rewrite join_cons by done.
    apply tools_more; [apply formatTool_renders | apply IH].
Qed.

Lemma toolsSection_functional (tools : list Tool.t) (a b : jsstring) :
  ToolsSection JSON_stringify tools a ->
  ToolsSection JSON_stringify tools b ->
  a = b.
Proof.
  intros Ha. revert b.
  induction Ha as [|tool text Hr|tool next others text rest Hr Hrest IH];
    intros b Hb; inversion Hb; subst.
  - done.
  - by eapply rendersAs_functional.
  - f_equal; [by eapply rendersAs_functional|]. f_equal. by apply IH.
Qed.

(** C9.  The document that [formatOutput] builds is, in this order: the
    title line with the version label, the release-date line, the
    user-message section, the system-prompt section and the tools section.
    The text of the user-message section is the user message with its
    headers reindented once (line by line, a header line has gained one
    ['#'] and any other line is as it was), and so for the system prompt.
    The content of the tools section is the tools in their order with the
    horizontal rule between two of them, where a tool is a subheading with
    its name, its description with the headers reindented twice, and its
    input schema printed by [JSON.stringify] with an indentation of two;
    for the empty tool list the section is there and its content is empty.
    No other text answers these descriptions. *)
Theorem formatOutput_layout (data : OutputData.t) :
  exists user system section,
    formatOutput JSON_stringify data
    = (lit "# Claude Code Version " ++ OutputData.versionLabel data
       ++ [LF; LF])
      ++ (lit "Release Date: " ++ OutputData.releaseDate data ++ [LF; LF])
      ++ (lit "# User Message" ++ [LF; LF] ++ user ++ [LF; LF])
      ++ (lit "# System Prompt" ++ [LF; LF] ++ system ++ [LF; LF])
      ++ (lit "# Tools" ++ [LF; LF] ++ section ++ [LF])
    /\ HeadersReindented (OutputData.userMessage data) user
    /\ HeadersReindented (OutputData.systemPrompt data) system
    /\ ToolsSection JSON_stringify (OutputData.tools data) section
    /\ (OutputData.tools data = [] -> section = [])
    /\ (forall text,
          HeadersReindented (OutputData.userMessage data) text -> text = user)
    /\ (forall text,
          HeadersReindented (OutputData.systemPrompt data) text ->
          text = system)
    /\ (forall text,
          ToolsSection JSON_stringify (OutputData.tools data) text ->
          text = section).
Proof.
  exists (indentHeaders (OutputData.userMessage data)),
         (indentHeaders (OutputData.systemPrompt data)),
         (formatTools JSON_stringify (OutputData.tools data)).
  split; [unfold formatOutput; by rewrite <- !app_assoc|].
  split; [apply indentHeaders_reindented|].
  split; [apply indentHeaders_reindented|].
  split; [apply formatTools_section|].
  split; [by intros ->|].
  split; [|split].
  - intros text Htext.
    eapply headersReindented_functional; [exact Htext|].
    apply indentHeaders_reindented.
  - intros text Htext.
    eapply headersReindented_functional; [exact Htext|].
    apply indentHeaders_reindented.
  - intros text Htext.
    eapply toolsSection_functional; [exact Htext|].
    apply formatTools_section.
Qed.

End Formatter.

(** ** The tool cataloguer *)

Section Cataloguer.
Import RequestFilter CatalogueSpec.

Lemma isNotMcp_spec (tool : Tool.t) :
  isNotMcp tool = true <-> ~ IsMcp tool.
Proof.
  unfold isNotMcp, IsMcp. rewrite negb_true_iff, <- startsWith_spec.
  by destruct (startsWith _ _).
Qed.

Lemma fresh_ref_unused {A : Type} (h : gmap ref (list A)) :
  h !! fresh (dom h) = None.
Proof. apply not_elem_of_dom, is_fresh. Qed.

Variable localeCompare : jsstring -> jsstring -> Z.

(** The comparison is an ordering of names: of two names one is not after
    the other, and "not after" is transitive. *)
Hypothesis localeCompare_total :
  forall a b, (0 < localeCompare a b)%Z -> (localeCompare b a <= 0)%Z.
Hypothesis localeCompare_trans :
  forall a b c,
    (localeCompare a b <= 0)%Z -> (localeCompare b c <= 0)%Z ->
    (localeCompare a c <= 0)%Z.

Lemma sort_byName_sorted (tools : list Tool.t) :
  StronglySorted (NameLe localeCompare) (sort (byName localeCompare) tools).
Proof.
  apply sort_StronglySorted; unfold NameLe, byName.
  - intros a b. apply localeCompare_total.
  - intros a b. lia.
  - intros a b c. apply localeCompare_trans.
Qed.

(** C7.  Run on a store [h] of arrays.  With no tool list,
    [filterAndSortTools] returns a new, empty array.  With the tool list at
    reference [arr], it returns a reference [out] that was not in use before
    the call, every array of [h], the input among them, is what it was, and
    the array at [out] holds exactly the tools of the input whose name does
    not begin with "mcp__", each as often as the input has it, ordered so
    that no tool is after a later one under the comparison of names.  On
    the tools named "mcp__x", "b", "a", when "b" compares after "a", the
    result is the tools named "a", "b". *)
Theorem filterAndSortTools_result :
  (forall h,
      exists out,
        filterAndSortTools localeCompare None h = Some (out, <[out := []]> h)
        /\ h !! out = None)
  /\ (forall h arr tools,
        h !! arr = Some tools ->
        exists out result,
          filterAndSortTools localeCompare (Some arr) h
          = Some (out, <[out := result]> h)
          /\ h !! out = None
          /\ (forall l, l <> out -> (<[out := result]> h) !! l = h !! l)
          /\ (<[out := result]> h) !! arr = Some tools
          /\ Permutation result (List.filter isNotMcp tools)
          /\ (forall tool, tool ∈ result <-> tool ∈ tools /\ ~ IsMcp tool)
          /\ StronglySorted (NameLe localeCompare) result)
  /\ ((0 < localeCompare (lit "b") (lit "a"))%Z ->
      forall h arr,
        h !! arr = Some [namedTool "mcp__x"; namedTool "b"; namedTool "a"] ->
        exists out,
          filterAndSortTools localeCompare (Some arr) h
          = Some (out, <[out := [namedTool "a"; namedTool "b"]]> h)
          /\ h !! out = None).
Proof.
  split; [|split].
  - intros h. exists (fresh (dom h)). split; [done|]. apply fresh_ref_unused.
  - intros h arr tools Harr.
    set (out := fresh (dom h)).
    set (kept := List.filter isNotMcp tools).
    assert (h !! out = None) as Hout by apply fresh_ref_unused.
    exists out, (sort (byName localeCompare) kept).
    assert (filterAndSortTools localeCompare (Some arr) h
            = Some (out, <[out := sort (byName localeCompare) kept]> h)) as Hrun.
    { unfold filterAndSortTools, andThen, arrayFilter, andThen, read, alloc,
        arraySort.
      rewrite Harr. fold out kept.
      rewrite lookup_insert_eq. by rewrite insert_insert_eq. }
    split; [exact Hrun|]. split; [exact Hout|]. split; [|split; [|split; [|split]]].
    + intros l Hl. by rewrite lookup_insert_ne.
    + rewrite lookup_insert_ne; [done|]. intros <-. congruence.
    + apply sort_Permutation.
    + intros tool.
      rewrite (elem_of_Permutation_proper _ _ _ (sort_Permutation _ kept)).
      unfold kept. by rewrite elem_of_List_filter, isNotMcp_spec.
    + apply sort_byName_sorted.
  - intros Hba h arr Harr. exists (fresh (dom h)).
    split; [|apply fresh_ref_unused].
    unfold filterAndSortTools, andThen, arrayFilter, andThen, read, alloc,
      arraySort.
    rewrite Harr, lookup_insert_eq, insert_insert_eq.
    do 3 f_equal.
    change (List.filter isNotMcp
              [namedTool "mcp__x"; namedTool "b"; namedTool "a"])
      with [namedTool "b"; namedTool "a"].
    cbn [sort insert]. unfold byName at 1.
    change (Tool.name (namedTool "b")) with (lit "b").
    change (Tool.name (namedTool "a")) with (lit "a").
    apply Z.ltb_lt in Hba. by rewrite Hba.
Qed.

End Cataloguer.

Lemma firstUnitCompare_total (a b : jsstring) :
  (0 < CatalogueSpec.firstUnitCompare a b)%Z ->
  (CatalogueSpec.firstUnitCompare b a <= 0)%Z.
Proof. unfold CatalogueSpec.firstUnitCompare. lia. Qed.

Lemma firstUnitCompare_trans (a b c : jsstring) :
  (CatalogueSpec.firstUnitCompare a b <= 0)%Z ->
  (CatalogueSpec.firstUnitCompare b c <= 0)%Z ->
  (CatalogueSpec.firstUnitCompare a c <= 0)%Z.
Proof. unfold CatalogueSpec.firstUnitCompare. lia. Qed.

Lemma filterAndSortTools_result_witness :
  exists out,
    RequestFilter.filterAndSortTools CatalogueSpec.firstUnitCompare (Some 1%positive)
      {[ 1%positive := [CatalogueSpec.namedTool "mcp__x";
                        CatalogueSpec.namedTool "b";
                        CatalogueSpec.namedTool "a"] ]}
    = Some (out,
            <[out := [CatalogueSpec.namedTool "a"; CatalogueSpec.namedTool "b"]]>
              {[ 1%positive := [CatalogueSpec.namedTool "mcp__x";
                                CatalogueSpec.namedTool "b";
                                CatalogueSpec.namedTool "a"] ]})
    /\ ({[ 1%positive := [CatalogueSpec.namedTool "mcp__x";
                          CatalogueSpec.namedTool "b";
                          CatalogueSpec.namedTool "a"] ]}
          : gmap ref (list Tool.t)) !! out = None.
Proof.
  refine (proj2 (proj2 (filterAndSortTools_result
                          CatalogueSpec.firstUnitCompare
                          firstUnitCompare_total firstUnitCompare_trans))
            _ _ 1%positive _).
  - vm_compute. reflexivity.
  - apply lookup_singleton_eq.
Defined.

(** ** The source patcher *)

Section Patcher.
Import CliPatcher PatcherSpec.

Lemma function_substring (text : jsstring) (i : nat) :
  substring i (i + 8) text = lit "function" <-> OccursAt functionToken text i.
Proof. apply (occursAt_substring functionToken text i). discriminate. Qed.

Lemma findFunctionIndex_spec (text : jsstring) (w : nat) :
  match findFunctionIndex text w with
  | Some f => NearestFunctionBefore text w f
  | None => NoFunctionBefore text w
  end.
Proof.
  induction w as [|w IH]; simpl.
  - destruct (decide (substring 0 8 text = lit "function")) as [H|H].
    + split; [lia|]. split; [by apply (function_substring text 0) | lia].
    + intros j Hj. replace j with 0 by lia. by rewrite <- function_substring.
  - destruct (decide (substring (S w) (S (w + 8)) text = lit "function"))
      as [H|H].
    + split; [lia|]. split; [by apply (function_substring text (S w)) | lia].
    + destruct (findFunctionIndex text w) as [f|].
      * destruct IH as (Hf & Hocc & Hnear). split; [lia|]. split; [done|].
        intros j Hj. destruct (decide (j = S w)) as [->|Hne].
        -- by rewrite <- function_substring.
        -- apply Hnear. lia.
      * intros j Hj. destruct (decide (j = S w)) as [->|Hne].
        -- by rewrite <- function_substring.
        -- apply IH. lia.
Qed.

Lemma scanOpenBrace_spec (rest : jsstring) (i : nat) :
  match scanOpenBrace rest i with
  | Some o =>
      exists k, o = i + k /\ rest !! k = Some "{"%char
                /\ forall j, j < k -> rest !! j <> Some "{"%char
  | None => forall j, rest !! j <> Some "{"%char
  end.
Proof.
  revert i. induction rest as [|c rest IH]; intros i; simpl.
  - intros j. by rewrite lookup_nil.
  - destruct (decide (c = "{"%char)) as [->|Hc].
    + exists 0. split; [lia|]. split; [done | lia].
    + specialize (IH (S i)). destruct (scanOpenBrace rest (S i)) as [o|].
      * destruct IH as (k & -> & Hk & Hbefore). exists (S k).
        split; [lia|]. split; [done|].
        intros [|j] Hj; simpl; [congruence|]. apply Hbefore. lia.
      * intros [|j]; simpl; [congruence | apply IH].
Qed.

Lemma findOpenBraceIndex_spec (text : jsstring) (f : nat) :
  match findOpenBraceIndex text f with
  | Some o => FirstOpenBraceFrom text f o
  | None => NoOpenBraceFrom text f
  end.
Proof.
  unfold findOpenBraceIndex.
  pose proof (scanOpenBrace_spec (drop f text) f) as H.
  destruct (scanOpenBrace (drop f text) f) as [o|].
  - destruct H as (k & -> & Hk & Hbefore). rewrite lookup_drop in Hk.
    split; [lia|]. split; [done|]. intros j Hj.
    specialize (Hbefore (j - f)). rewrite lookup_drop in Hbefore.
    replace (f + (j - f)) with j in Hbefore by lia. apply Hbefore. lia.
  - intros j Hj. specialize (H (j - f)). rewrite lookup_drop in H.
    by replace (f + (j - f)) with j in H by lia.
Qed.

Lemma depthAfter_cons (d : Z) (c : ascii) (piece : jsstring) :
  depthAfter d (c :: piece) = depthAfter (depthStep d c) piece.
Proof. done. Qed.

Lemma depthAfter_app (d : Z) (p q : jsstring) :
  depthAfter d (p ++ q) = depthAfter (depthAfter d p) q.
Proof. apply foldl_app. Qed.

Lemma depthAfter_shift (d : Z) (piece : jsstring) :
  depthAfter d piece = (d + depthAfter 0 piece)%Z.
Proof.
  revert d. induction piece as [|c piece IH]; intros d.
  - unfold depthAfter. simpl. lia.
  - rewrite !depthAfter_cons, (IH (depthStep d c)), (IH (depthStep 0 c)).
    unfold depthStep. repeat case_decide; lia.
Qed.

Lemma scanCloseBrace_spec (rest : jsstring) (i : nat) (d : Z) :
  (1 <= d)%Z ->
  match scanCloseBrace rest i d with
  | Some c =>
      exists k, c = i + k /\ k < length rest
                /\ depthAfter d (take (S k) rest) = 0%Z
                /\ forall j, j <= k -> depthAfter d (take j rest) <> 0%Z
  | None => forall j, j <= length rest -> depthAfter d (take j rest) <> 0%Z
  end.
Proof.
  revert i d. induction rest as [|c rest IH]; intros i d Hd; simpl.
  - intros j _. rewrite take_nil. unfold depthAfter. simpl. lia.
  - assert (forall d',
      depthStep d c = d' -> (1 <= d')%Z ->
      match scanCloseBrace rest (S i) d' with
      | Some c0 =>
          exists k, c0 = i + k /\ k < S (length rest)
                    /\ depthAfter d (take (S k) (c :: rest)) = 0%Z
                    /\ forall j, j <= k ->
                                 depthAfter d (take j (c :: rest)) <> 0%Z
      | None =>
          forall j, j <= S (length rest) ->
                    depthAfter d (take j (c :: rest)) <> 0%Z
      end) as Hstep.
    { intros d' Hstep Hd'. specialize (IH (S i) d' Hd').
      destruct (scanCloseBrace rest (S i) d') as [c0|].
      - destruct IH as (k & -> & Hk & Hzero & Hbefore). exists (S k).
        split; [lia|]. split; [lia|]. split.
        + cbn [take]. by rewrite depthAfter_cons, Hstep.
        + intros [|j] Hj.
          * unfold depthAfter. simpl. lia.
          * cbn [take]. rewrite depthAfter_cons, Hstep. apply Hbefore. lia.
      - intros [|j] Hj.
        + unfold depthAfter. simpl. lia.
        + cbn [take]. rewrite depthAfter_cons, Hstep. apply IH. lia. }
    destruct (decide (c = "{"%char)) as [Hc|Hc].
    + apply Hstep; [|lia]. unfold depthStep. by rewrite decide_True.
    + destruct (decide (c = "}"%char)) as [Hc'|Hc'].
      * destruct (decide ((d - 1)%Z = 0%Z)) as [Hz|Hz].
        -- exists 0. split; [lia|]. split; [lia|]. split.
           ++ unfold depthStep. rewrite decide_False, decide_True by done.
              rewrite take_0. unfold depthAfter. simpl. lia.
           ++ intros j Hj. replace j with 0 by lia.
              unfold depthAfter. simpl. lia.
        -- apply Hstep; [|lia]. unfold depthStep.
           by rewrite decide_False, decide_True.
      * apply Hstep; [|lia]. unfold depthStep.
        by rewrite !decide_False.
Qed.

Lemma findCloseBraceIndex_spec (text : jsstring) (o : nat) :
  match findCloseBraceIndex text o with
  | Some c => ClosesAt text o c
  | None => ScanExhausts text o
  end.
Proof.
  unfold findCloseBraceIndex.
  pose proof (scanCloseBrace_spec (drop (o + 1) text) (o + 1) 1) as H.
  destruct (scanCloseBrace (drop (o + 1) text) (o + 1) 1) as [c|].
  - destruct H as (k & -> & Hk & Hzero & Hbefore); [lia|].
    rewrite length_drop in Hk. split; [lia|]. split.
    + unfold depthAt, substring.
      by replace (o + 1 + k + 1 - (o + 1)) with (S k) by lia.
    + intros j Hj. unfold depthAt, substring. apply Hbefore. lia.
  - intros k Hk. unfold depthAt, substring. apply H; [lia|].
    rewrite length_drop. lia.
Qed.

(** Every call falls under one case of the analysis and gives the result of
    that case. *)
Lemma patchCliVersionCheck_classified (text : jsstring) :
  exists outcome,
    Classify text outcome
    /\ patchCliVersionCheck text = outcomeResult text outcome.
Proof.
  unfold patchCliVersionCheck.
  destruct (indexOf warningText text) as [w|] eqn:Hw.
  2: { exists MarkerAbsent. split; [|done]. constructor. by apply indexOf_None. }
  apply indexOf_Some in Hw.
  pose proof (findFunctionIndex_spec text w) as Hf.
  destruct (findFunctionIndex text w) as [f|].
  2: { exists NoEnclosingFunction. split; [|done]. by econstructor. }
  pose proof (findOpenBraceIndex_spec text f) as Ho.
  destruct (findOpenBraceIndex text f) as [o|].
  2: { exists NoOpeningBrace. split; [|done]. by econstructor. }
  pose proof (findCloseBraceIndex_spec text o) as Hc.
  destruct (findCloseBraceIndex text o) as [c|].
  2: { exists UnbalancedBraces. split; [|done]. by econstructor. }
  exists (Rewritten f o c). split; [by econstructor|].
  simpl. unfold rewritten, substring at 1. rewrite Nat.sub_0_r. simpl.
  by rewrite <- !app_assoc.
Qed.

Lemma nearestFunction_unique text w f f' :
  NearestFunctionBefore text w f -> NearestFunctionBefore text w f' -> f = f'.
Proof.
  intros (Hf & Hocc & Hnear) (Hf' & Hocc' & Hnear').
  destruct (Nat.lt_trichotomy f f') as [H|[H|H]]; [|done|].
  - destruct (Hnear f'); [lia | done].
  - destruct (Hnear' f); [lia | done].
Qed.

Lemma firstOpenBrace_unique text f o o' :
  FirstOpenBraceFrom text f o -> FirstOpenBraceFrom text f o' -> o = o'.
Proof.
  intros (Ho & Hat & Hbefore) (Ho' & Hat' & Hbefore').
  destruct (Nat.lt_trichotomy o o') as [H|[H|H]]; [|done|].
  - destruct (Hbefore' o); [lia | done].
  - destruct (Hbefore o'); [lia | done].
Qed.

Lemma closesAt_unique text o c c' :
  ClosesAt text o c -> ClosesAt text o c' -> c = c'.
Proof.
  intros (Hc & Hzero & Hbefore) (Hc' & Hzero' & Hbefore').
  destruct (Nat.lt_trichotomy c c') as [H|[H|H]]; [|done|].
  - destruct (Hbefore' (c + 1)); [lia | done].
  - destruct (Hbefore (c' + 1)); [lia | done].
Qed.

(** The cases exclude one another. *)
Lemma classify_unique (text : jsstring) (o1 o2 : Outcome) :
  Classify text o1 -> Classify text o2 -> o1 = o2.
Proof.
  assert (forall w, FirstOccurrence warningText text w ->
                    Contains warningText text) as Hcontains
      by (intros w [H _]; by exists w).
  intros H1 H2.
  destruct H1 as [Hno|w Hw Hnf|w f Hw Hf Hnb|w f o Hw Hf Ho Hx|w f o c Hw Hf Ho Hc];
  destruct H2 as [Hno'|w' Hw' Hnf'|w' f' Hw' Hf' Hnb'|w' f' o' Hw' Hf' Ho' Hx'
                 |w' f' o' c' Hw' Hf' Ho' Hc'];
    try done;
    try (by destruct Hno; eauto);
    try (by destruct Hno'; eauto);
    pose proof (firstOccurrence_unique _ _ _ _ Hw Hw') as <-.
  all: try (destruct Hf' as (Hle & Hocc & _); by destruct (Hnf f')).
  all: try (destruct Hf as (Hle & Hocc & _); by destruct (Hnf' f)).
  all: pose proof (nearestFunction_unique _ _ _ _ Hf Hf') as <-.
  all: try (destruct Ho' as (Hle & Hat & _); by destruct (Hnb o')).
  all: try (destruct Ho as (Hle & Hat & _); by destruct (Hnb' o)).
  all: pose proof (firstOpenBrace_unique _ _ _ _ Ho Ho') as <-.
  - destruct Hc' as (Hle & Hzero & _). destruct (Hx (c' + 1)); [lia | done].
  - destruct Hc as (Hle & Hzero & _). destruct (Hx' (c + 1)); [lia | done].
  - by rewrite (closesAt_unique _ _ _ _ Hc Hc').
Qed.

Lemma classify_result (text : jsstring) (outcome : Outcome) :
  Classify text outcome ->
  patchCliVersionCheck text = outcomeResult text outcome.
Proof.
  intros H. destruct (patchCliVersionCheck_classified text) as (o' & H' & ->).
  by rewrite (classify_unique _ _ _ H H').
Qed.

(** C3.  Every call of [patchCliVersionCheck] falls under exactly one of
    five cases and gives the result of that case.  A text without the marker
    is returned as it is, with [patched] false and no error; so a second run
    on a result that has no marker does not fail.  A text with the marker
    makes the call throw exactly when (a) no "function" token starts at or
    before the marker, or (b) no opening brace is at or after the nearest
    such token, or (c) the scan from the first such brace, which starts at
    depth 1, goes up on an opening and down on a closing brace, reaches the
    end of the text without the depth being 0; what is thrown is one of the
    three structure errors, (a), (b) and (c) each with its own message; in
    every other case the call returns with [patched] true. *)
Theorem patchCliVersionCheck_outcome (text : jsstring) :
  (exists outcome, Classify text outcome)
  /\ (forall outcome,
        Classify text outcome ->
        patchCliVersionCheck text = outcomeResult text outcome)
  /\ (forall o1 o2, Classify text o1 -> Classify text o2 -> o1 = o2)
  /\ (~ Contains warningText text ->
      patchCliVersionCheck text = Ok (unpatched text))
  /\ (Contains warningText text ->
      ((exists e, patchCliVersionCheck text = Throw e) <-> StructureFailure text)
      /\ (forall e, patchCliVersionCheck text = Throw e -> StructureError e)
      /\ (~ StructureFailure text ->
          exists content, patchCliVersionCheck text = Ok (rewritten content)))
  /\ (forall r,
        patchCliVersionCheck text = Ok r ->
        ~ Contains warningText (PatchResult.content r) ->
        patchCliVersionCheck (PatchResult.content r)
        = Ok (unpatched (PatchResult.content r))).
Proof.
  destruct (patchCliVersionCheck_classified text) as (outcome & Hclass & Hrun).
  split; [by exists outcome|].
  split; [apply classify_result|].
  split; [apply classify_unique|].
  assert (forall s, ~ Contains warningText s ->
                    patchCliVersionCheck s = Ok (unpatched s)) as Habsent.
  { intros s Hs. apply (classify_result s MarkerAbsent). by constructor. }
  split; [apply Habsent|]. split; [|intros r _; apply Habsent].
  intros Hmarker. unfold StructureFailure. split; [|split].
  - split.
    + intros [e He]. rewrite Hrun in He.
      destruct Hclass; simpl in He; try discriminate; eauto using Classify.
    + intros [H|[H|H]]; rewrite (classify_result _ _ H); simpl; eauto.
  - intros e He. rewrite Hrun in He. unfold StructureError.
    destruct Hclass; simpl in He; try discriminate;
      injection He as <-; auto.
  - intros Hnot. rewrite Hrun.
    destruct Hclass; simpl; eauto; try contradiction;
      destruct Hnot; eauto using Classify.
Qed.

End Patcher.

(** *** The rewritten text *)

Section PatcherFrame.
Import CliPatcher PatcherSpec.

Lemma not_elem_of_check (c : ascii) (s : jsstring) :
  forallb (fun x => negb (Ascii.eqb x c)) s = true -> c ∉ s.
Proof.
  induction s as [|a s IH]; simpl.
  - intros _. apply not_elem_of_nil.
  - intros [Ha Hs]%andb_true_iff [->|Hin]%elem_of_cons.
    + by rewrite Ascii.eqb_refl in Ha.
    + by apply IH.
Qed.

Lemma balancedFrom_sound (d : Z) (piece : jsstring) :
  (0 <= d)%Z ->
  balancedFrom d piece = true ->
  depthAfter d piece = 0%Z /\ forall n, (0 <= depthAfter d (take n piece))%Z.
Proof.
  revert d. induction piece as [|c piece IH]; intros d Hd; simpl.
  - intros ->%Z.eqb_eq. split; [done|]. intros n. by rewrite take_nil.
  - intros [Hstep Hrest]%andb_true_iff. apply Z.leb_le in Hstep.
    destruct (IH _ Hstep Hrest) as [Hend Hall]. split; [done|].
    intros [|n]; [done|]. cbn [take]. rewrite depthAfter_cons. apply Hall.
Qed.

Lemma balanced_check (body : jsstring) :
  balancedFrom 0 body = true -> Balanced body.
Proof. by apply balancedFrom_sound. Qed.

Lemma occursAt_lookup (p s : jsstring) (j i : nat) :
  OccursAt p s j -> i < length p -> s !! (j + i) = p !! i.
Proof.
  intros (pre & post & -> & <-) Hi.
  rewrite lookup_app_r by lia.
  replace (length pre + i - length pre) with i by lia.
  by rewrite lookup_app_l.
Qed.

Lemma substring_app_l (a b : nat) (s k : jsstring) :
  b <= length s -> substring a b (s ++ k) = substring a b s.
Proof.
  intros Hb. unfold substring.
  destruct (decide (a <= length s)) as [Ha|Ha].
  - rewrite drop_app_le by done. apply take_app_le. rewrite length_drop. lia.
  - by replace (b - a) with 0 by lia.
Qed.

(** The shape of a script around the function that is rewritten. *)
Variables pre sig body post : jsstring.

Let decl : jsstring := functionToken ++ sig ++ ["{"%char].
Let text : jsstring := pre ++ decl ++ body ++ "}"%char :: post.

Hypothesis sig_no_brace : "{"%char ∉ sig.
Hypothesis body_balanced : Balanced body.

Lemma shape_function_token : OccursAt functionToken text (length pre).
Proof.
  exists pre, (sig ++ ["{"%char] ++ body ++ "}"%char :: post).
  split; [|done]. unfold text, decl. by rewrite <- !app_assoc.
Qed.

Lemma shape_open_brace :
  FirstOpenBraceFrom text (length pre) (length pre + 8 + length sig).
Proof.
  assert (text = (pre ++ functionToken ++ sig)
                 ++ "{"%char :: body ++ "}"%char :: post) as Htext.
  { unfold text, decl. by rewrite <- !app_assoc. }
  assert (length (pre ++ functionToken ++ sig) = length pre + 8 + length sig)
    as Hlen by (rewrite !length_app; simpl; lia).
  split; [lia|]. split.
  - rewrite Htext, <- Hlen. apply list_lookup_middle. done.
  - intros j Hj Hat. rewrite Htext in Hat.
    rewrite lookup_app_l in Hat by lia.
    rewrite lookup_app_r in Hat by lia.
    apply list_elem_of_lookup_2, elem_of_app in Hat as [Hat|Hat].
    + revert Hat. by apply not_elem_of_check.
    + done.
Qed.

Lemma shape_after_brace :
  drop (length pre + 8 + length sig + 1) text = body ++ "}"%char :: post.
Proof.
  assert (text = (pre ++ decl) ++ body ++ "}"%char :: post) as ->
    by (unfold text; by rewrite <- !app_assoc).
  apply drop_app_length'. unfold decl. rewrite !length_app. simpl. lia.
Qed.

Lemma shape_close_brace :
  ClosesAt text (length pre + 8 + length sig)
    (length pre + 8 + length sig + 1 + length body).
Proof.
  destruct body_balanced as [Hend Hall].
  split; [|split].
  - unfold text, decl. repeat (rewrite ?length_app; cbn [length]).
    change (length functionToken) with 8. lia.
  - unfold depthAt, substring. rewrite shape_after_brace.
    replace (length pre + 8 + length sig + 1 + length body + 1
             - (length pre + 8 + length sig + 1)) with (length body + 1) by lia.
    replace (body ++ "}"%char :: post) with ((body ++ ["}"%char]) ++ post)
      by (by rewrite <- app_assoc).
    rewrite take_app_length' by (rewrite length_app; simpl; lia).
    rewrite depthAfter_app, (depthAfter_shift 1 body), Hend. done.
  - intros k Hk. unfold depthAt, substring. rewrite shape_after_brace.
    rewrite take_app_le by lia.
    rewrite depthAfter_shift.
    specialize (Hall (k - (length pre + 8 + length sig + 1))). lia.
Qed.

Lemma shape_rewritten :
  take (length pre) text
  ++ substring (length pre) (length pre + 8 + length sig + 1) text
  ++ patchComment
  ++ drop (length pre + 8 + length sig + 1 + length body + 1) text
  = pre ++ decl ++ patchComment ++ post.
Proof.
  assert (length decl = 8 + length sig + 1) as Hdecl
    by (unfold decl; rewrite !length_app; simpl; lia).
  f_equal; [apply take_app_length|]. f_equal; [|f_equal].
  - unfold substring, text. rewrite drop_app_length.
    apply take_app_length'. lia.
  - assert (text = (pre ++ decl ++ body ++ ["}"%char]) ++ post) as ->.
    { unfold text. by rewrite <- !app_assoc. }
    apply drop_app_length'. rewrite !length_app, Hdecl. cbn [length]. lia.
Qed.

Variable w : nat.
Hypothesis marker_first : FirstOccurrence warningText text w.
Hypothesis function_before : length pre <= w.
Hypothesis function_nearest :
  forall j, length pre < j <= w -> ~ OccursAt functionToken text j.

Lemma shape_classified :
  Classify text
    (Rewritten (length pre) (length pre + 8 + length sig)
       (length pre + 8 + length sig + 1 + length body)).
Proof.
  apply (classify_rewritten text w); [done| | |].
  - split; [done|]. split; [apply shape_function_token | done].
  - apply shape_open_brace.
  - apply shape_close_brace.
Qed.

Lemma shape_marker_gone (j : nat) :
  length pre + length decl <= w ->
  OccursAt warningText (pre ++ decl ++ patchComment ++ post) j ->
  length pre + length decl + length patchComment <= j.
Proof.
  intros marker_inside Hocc.
  destruct (decide (length pre + length decl + length patchComment <= j))
    as [|Hlt]; [done|]. exfalso.
  set (D := length pre + length decl) in *.
  assert (length warningText = 41) as Hlen by done.
  assert (forall i, (pre ++ decl ++ patchComment ++ post) !! (D + i)
                    = (patchComment ++ post) !! i) as Hcomment.
  { intros i. rewrite (app_assoc pre decl).
    rewrite lookup_app_r by (rewrite length_app; lia).
    f_equal. rewrite length_app. lia. }
  destruct (decide (j + length warningText <= D)) as [Hin|Hover].
  - (* the occurrence lies in the part that the rewrite keeps *)
    destruct marker_first as [_ Hfirst]. apply (Hfirst j); [lia|].
    apply occursAt_substring in Hocc; [|discriminate].
    apply occursAt_substring; [discriminate|].
    etrans; [|exact Hocc]. unfold text.
    rewrite !(app_assoc pre decl).
    rewrite (substring_app_l _ _ (pre ++ decl) (body ++ _)),
      (substring_app_l _ _ (pre ++ decl) (patchComment ++ post))
      by (rewrite length_app; lia).
    done.
  - destruct (decide (D <= j)) as [Hstart|Hstart].
    + (* it starts inside the comment: the comment has no capital I *)
      pose proof (occursAt_lookup _ _ j 0 Hocc) as H0.
      rewrite Nat.add_0_r in H0.
      replace j with (D + (j - D)) in H0 at 1 by lia.
      rewrite Hcomment, lookup_app_l in H0 by lia.
      specialize (H0 ltac:(vm_compute; lia)).
      apply list_elem_of_lookup_2 in H0. revert H0.
      by apply not_elem_of_check.
    + (* it runs into the comment: the marker has no slash and does not end
         with a space *)
      destruct (decide (D - j = 40)) as [Hlast|Hlast].
      * pose proof (occursAt_lookup _ _ j 40 Hocc ltac:(lia)) as H40.
        replace (j + 40) with (D + 0) in H40 by lia.
        rewrite Hcomment in H40. discriminate H40.
      * pose proof (occursAt_lookup _ _ j (D - j + 1) Hocc ltac:(lia)) as H1.
        replace (j + (D - j + 1)) with (D + 1) in H1 by lia.
        rewrite Hcomment in H1. symmetry in H1.
        apply list_elem_of_lookup_2 in H1. revert H1.
        by apply not_elem_of_check.
Qed.

End PatcherFrame.

Section PatcherProperties.
Import CliPatcher PatcherSpec.

Lemma depth_stays_positive (d : Z) (piece : jsstring) :
  (1 <= d)%Z ->
  (forall n, n <= length piece -> depthAfter d (take n piece) <> 0%Z) ->
  forall n, (1 <= depthAfter d (take n piece))%Z.
Proof.
  revert d. induction piece as [|c piece IH]; intros d Hd Hnz n.
  - by rewrite take_nil.
  - destruct n as [|n]; [done|]. cbn [take]. rewrite depthAfter_cons.
    assert (depthStep d c <> 0%Z) as Hstep.
    { exact (Hnz 1 ltac:(simpl; lia)). }
    apply IH.
    + unfold depthStep in *. repeat case_decide; lia.
    + intros m Hm. exact (Hnz (S m) ltac:(simpl; lia)).
Qed.

(** Every text that [patchCliVersionCheck] rewrites has the shape that the
    frame property below starts from. *)
Lemma rewritten_shape (text : jsstring) (w f o c : nat) :
  NearestFunctionBefore text w f ->
  FirstOpenBraceFrom text f o ->
  ClosesAt text o c ->
  exists pre sig body post,
    text = pre ++ (functionToken ++ sig ++ ["{"%char])
           ++ body ++ "}"%char :: post
    /\ length pre = f /\ ("{"%char ∉ sig) /\ Balanced body.
Proof.
  intros (Hfw & (pre & rest0 & Htext & Hpre) & _) (Hfo & Hopen & Hnone)
         (Hoc & Hzero & Hnz).
  assert (length functionToken = 8) as Hlen by done.
  (* the brace is after the token *)
  assert (f + 8 <= o) as Ho.
  { destruct (decide (f + 8 <= o)) as [|Hlt]; [done|]. exfalso.
    rewrite Htext, lookup_app_r, lookup_app_l in Hopen by lia.
    apply list_elem_of_lookup_2 in Hopen. revert Hopen.
    by apply not_elem_of_check. }
  assert (forall i, rest0 !! i = text !! (f + 8 + i)) as Hrest0.
  { intros i. rewrite Htext, !lookup_app_r by lia. f_equal. lia. }
  assert (rest0 !! (o - f - 8) = Some "{"%char) as Hk.
  { rewrite Hrest0. by replace (f + 8 + (o - f - 8)) with o by lia. }
  set (sig := take (o - f - 8) rest0).
  set (rest1 := drop (S (o - f - 8)) rest0).
  assert (rest0 = sig ++ "{"%char :: rest1) as Hsplit0
      by (symmetry; by apply take_drop_middle).
  assert (length sig = o - f - 8) as Hsig.
  { unfold sig. rewrite length_take. apply lookup_lt_Some in Hk. lia. }
  assert ("{"%char ∉ sig) as Hsig_clean.
  { intros (i & Hi)%list_elem_of_lookup_1.
    pose proof (lookup_lt_Some _ _ _ Hi) as Hlt.
    unfold sig in Hi. rewrite lookup_take_lt in Hi by lia.
    rewrite Hrest0 in Hi. apply (Hnone (f + 8 + i)); [lia | done]. }
  assert (drop (o + 1) text = rest1) as Hdrop.
  { rewrite Htext, Hsplit0.
    replace (pre ++ functionToken ++ sig ++ "{"%char :: rest1)
      with ((pre ++ functionToken ++ sig ++ ["{"%char]) ++ rest1)
      by (by rewrite <- !app_assoc).
    apply drop_app_length'. rewrite !length_app. cbn [length]. lia. }
  assert (length rest1 = length text - (o + 1)) as Hrest1
      by (by rewrite <- Hdrop, length_drop).
  set (n := c - o - 1).
  destruct (lookup_lt_is_Some_2 rest1 n) as [x Hx]; [lia|].
  set (body := take n rest1).
  set (post := drop (S n) rest1).
  assert (rest1 = body ++ x :: post) as Hsplit1
      by (symmetry; by apply take_drop_middle).
  assert (length body = n) as Hbody by (unfold body; rewrite length_take; lia).
  assert (forall m, (1 <= depthAfter 1 (take m body))%Z) as Hpos.
  { apply depth_stays_positive; [lia|]. intros m Hm.
    specialize (Hnz (o + 1 + m) ltac:(lia)).
    unfold depthAt, substring in Hnz. rewrite Hdrop in Hnz.
    replace (o + 1 + m - (o + 1)) with m in Hnz by lia.
    unfold body. rewrite take_take. by replace (m `min` n) with m by lia. }
  assert (depthAfter 1 body = 1%Z /\ x = "}"%char) as [Hend ->].
  { unfold depthAt, substring in Hzero. rewrite Hdrop in Hzero.
    replace (c + 1 - (o + 1)) with (S n) in Hzero by lia.
    rewrite (take_S_r _ _ _ Hx), depthAfter_app in Hzero.
    fold body in Hzero.
    specialize (Hpos (length body)). rewrite take_ge in Hpos by lia.
    unfold depthAfter at 1 in Hzero. simpl in Hzero.
    unfold depthStep in Hzero.
    destruct (decide (x = "{"%char)); [lia|].
    destruct (decide (x = "}"%char)); [split; [lia | done] | lia]. }
  exists pre, sig, body, post. split; [|split; [done|split; [done|]]].
  - rewrite Htext, Hsplit0, Hsplit1. by rewrite <- !app_assoc.
  - split.
    + rewrite depthAfter_shift in Hend. lia.
    + intros m. specialize (Hpos m). rewrite depthAfter_shift in Hpos. lia.
Qed.

Lemma patched_has_shape (text : jsstring) (r : PatchResult.t) :
  patchCliVersionCheck text = Ok r ->
  PatchResult.patched r = true ->
  exists pre sig body post w,
    text = pre ++ (functionToken ++ sig ++ ["{"%char])
           ++ body ++ "}"%char :: post
    /\ FirstOccurrence warningText text w
    /\ length pre <= w
    /\ (forall j, length pre < j <= w -> ~ OccursAt functionToken text j)
    /\ ("{"%char ∉ sig)
    /\ Balanced body.
Proof.
  intros Hrun Hpatched.
  destruct (patchCliVersionCheck_classified text) as (outcome & Hclass & Hres).
  rewrite Hrun in Hres.
  destruct Hclass as [| | | |w f o c Hw Hf Ho Hc];
    cbn [outcomeResult] in Hres; try discriminate.
  - injection Hres as ->. discriminate.
  - destruct (rewritten_shape text w f o c Hf Ho Hc)
      as (pre & sig & body & post & Htext & <- & Hsig & Hbal).
    exists pre, sig, body, post, w. destruct Hf as (Hfw & _ & Hnear).
    split; [done|]. split; [done|]. split; [done|].
    split; [done|]. by split.
Qed.





Lemma patchCliVersionCheck_outcome_witness :
  StructureFailure unclosedScript
  /\ patchCliVersionCheck sampleRewritten = Ok (unpatched sampleRewritten).
Proof.
  split.
  - refine (proj1 (proj1 (proj1 (proj2 (proj2 (proj2 (proj2
              (patchCliVersionCheck_outcome unclosedScript))))) _)) _).
    + apply includes_spec. vm_compute. reflexivity.
    + eexists. vm_compute. reflexivity.
  - refine (proj2 (proj2 (proj2 (proj2 (proj2
              (patchCliVersionCheck_outcome sampleScript)))))
              (rewritten sampleRewritten) _ _).
    + vm_compute. reflexivity.
    + apply indexOf_None. vm_compute. reflexivity.
Defined.

End PatcherProperties.

(* ===================================================================== *)
(** * Part II, continued.  Further properties of the code                  *)
(* ===================================================================== *)

(** ** The request selector and its helpers *)

Section SelectorMore.
Import RequestFilter RequestFilterExports SelectorSpec SelectorSamples.

Lemma contains_middle (p pre post : jsstring) : Contains p (pre ++ p ++ post).
Proof. exists (length pre), pre, post. done. Qed.

Lemma List_filter_idempotent {A : Type} (f : A -> bool) (l : list A) :
  List.filter f (List.filter f l) = List.filter f l.
Proof.
  induction l as [|a l IH]; simpl; [done|].
  destruct (f a) eqn:Ha; simpl; [|done]. by rewrite Ha, IH.
Qed.

(** X1.  [filterNonHaikuRequests] keeps, in capture order, exactly the
    records whose model identifier is there, is not empty and has no
    spelling of haiku in it: an identifier that contains the word in any
    mix of upper and lower case is discarded.  Filtering a second time
    changes nothing. *)
Theorem filterNonHaikuRequests_any_case (pairs : list RequestResponsePair.t) :
  (forall r, r ∈ filterNonHaikuRequests pairs <-> r ∈ pairs /\ Survives r)
  /\ sublist (filterNonHaikuRequests pairs) pairs
  /\ (forall r pre spelling post,
        modelOf r = Some (pre ++ spelling ++ post) ->
        toLowerCase spelling = lit "haiku" ->
        r ∉ filterNonHaikuRequests pairs)
  /\ filterNonHaikuRequests (filterNonHaikuRequests pairs)
     = filterNonHaikuRequests pairs.
Proof.
  split; [apply elem_of_filterNonHaikuRequests|].
  split; [apply List_filter_sublist|].
  split; [|apply List_filter_idempotent].
  intros r pre spelling post Hmodel Hspell
         [_ (model & Hm & _ & Hno)]%elem_of_filterNonHaikuRequests.
  rewrite Hmodel in Hm. injection Hm as <-. apply Hno.
  unfold toLowerCase in *. rewrite !map_app, Hspell. apply contains_middle.
Qed.

Lemma filterNonHaikuRequests_any_case_witness :
  mixedCaseHaikuPair ∉ filterNonHaikuRequests [plainPair; mixedCaseHaikuPair].
Proof.
  refine (proj1 (proj2 (proj2 (filterNonHaikuRequests_any_case _)))
            mixedCaseHaikuPair (lit "claude-3-") (lit "HaiKu")
            (lit "-20240307") _ _); reflexivity.
Defined.

Lemma selectBestRequest_by_survivors (pairs pairs' : list RequestResponsePair.t) :
  filterNonHaikuRequests pairs = filterNonHaikuRequests pairs' ->
  selectBestRequest pairs = selectBestRequest pairs'.
Proof.
  intros H. unfold selectBestRequest, requestsWithToolsAndSystemPrompt.
  by rewrite H.
Qed.

(** X2.  Records that the first filter discards (no model identifier, an
    empty one, or a haiku one) have no influence on the selection: with or
    without such a record, at any place of the capture, [selectBestRequest]
    gives the same result, and it gives the same result on the capture as
    on the filtered capture. *)
Theorem selectBestRequest_ignores_discarded
    (before after : list RequestResponsePair.t) (x : RequestResponsePair.t) :
  ~ Survives x ->
  selectBestRequest (before ++ x :: after) = selectBestRequest (before ++ after)
  /\ selectBestRequest (filterNonHaikuRequests (before ++ x :: after))
     = selectBestRequest (before ++ after).
Proof.
  intros Hx.
  assert (filterNonHaikuRequests (before ++ x :: after)
          = filterNonHaikuRequests (before ++ after)) as Hsame.
  { unfold filterNonHaikuRequests. rewrite !List.filter_app. simpl.
    destruct (isNonHaiku x) eqn:E; [|done].
    by apply isNonHaiku_spec in E. }
  split; apply selectBestRequest_by_survivors; [done|].
  unfold filterNonHaikuRequests in *.
  by rewrite List_filter_idempotent.
Qed.

Lemma selectBestRequest_ignores_discarded_witness :
  selectBestRequest [mixedCaseHaikuPair; plainPair]
  = selectBestRequest [plainPair].
Proof.
  refine (proj1 (selectBestRequest_ignores_discarded [] [plainPair]
                   mixedCaseHaikuPair _)).
  rewrite <- isNonHaiku_spec. vm_compute. discriminate.
Defined.

Lemma selectBestRequest_Ok_inv (pairs : list RequestResponsePair.t) r :
  selectBestRequest pairs = Ok r ->
  r ∈ filterNonHaikuRequests pairs
  /\ (requestsWithToolsAndSystemPrompt pairs <> [] ->
      r ∈ requestsWithToolsAndSystemPrompt pairs)
  /\ (requestsWithToolsAndSystemPrompt pairs = [] ->
      exists rest, filterNonHaikuRequests pairs = r :: rest).
Proof.
  intros Hsel.
  destruct (selectBestRequest_cases pairs)
    as [(before & best & after & Ht & Hbest & _)
       |[[Hnil (fb & others & Hf & Hfb)]|(_ & _ & Hthrow)]].
  - rewrite Hbest in Hsel. injection Hsel as <-.
    assert (best ∈ requestsWithToolsAndSystemPrompt pairs) as Hin
        by (rewrite Ht; apply elem_of_app; right; by left).
    split; [by apply elem_of_tier_survivors in Hin as [? _]|].
    split; [done|]. intros Hnil. rewrite Hnil in Ht. by destruct before.
  - rewrite Hfb in Hsel. injection Hsel as <-.
    split; [rewrite Hf; by left|]. split; [done|]. intros _. by exists others.
  - congruence.
Qed.

Lemma hasTools_defined (pair : RequestResponsePair.t) (body : RequestBody.t) :
  bodyOf pair = Some body ->
  hasTools pair = Some (requestHasTools pair).
Proof.
  unfold hasTools, requestHasTools, toolsOf, bodyOf.
  destruct (RequestResponsePair.request pair) as [req|]; [|done].
  intros ->. by destruct (RequestBody.tools body).
Qed.

Lemma survives_body (pair : RequestResponsePair.t) :
  Survives pair -> exists body, bodyOf pair = Some body.
Proof.
  intros (model & Hm & _). unfold modelOf in Hm.
  destruct (bodyOf pair) as [body|]; [by exists body | done].
Qed.

(** X3.  The exported [hasTools] reads [pair.request.body] unguarded: it
    throws exactly on a pair without request or without body.  The record
    that [selectBestRequest] returns always has both, so the caller can read
    its body and call [hasTools] on it; the answer is then true exactly when
    the record has a non-empty tool list. *)
Theorem hasTools_on_selected (pairs : list RequestResponsePair.t) :
  (forall pair, hasTools pair = None <-> bodyOf pair = None)
  /\ (forall r,
        selectBestRequest pairs = Ok r ->
        exists req body answer,
          RequestResponsePair.request r = Some req
          /\ Request.body req = Some body
          /\ hasTools r = Some answer
          /\ (answer = true <-> HasNonEmptyTools r)).
Proof.
  split.
  - intros pair. unfold hasTools, bodyOf.
    destruct (RequestResponsePair.request pair) as [req|]; [|done].
    destruct (Request.body req) as [body|]; [|done].
    by destruct (RequestBody.tools body).
  - intros r Hsel.
    destruct (selectBestRequest_Ok_inv pairs r Hsel) as [Hin _].
    apply elem_of_filterNonHaikuRequests in Hin as [_ Hs].
    destruct (survives_body r Hs) as [body Hbody].
    pose proof (hasTools_defined r body Hbody) as Hhas.
    unfold bodyOf in Hbody.
    destruct (RequestResponsePair.request r) as [req|] eqn:Hreq; [|done].
    exists req, body, (requestHasTools r). repeat split; try done.
    + by intros ?%requestHasTools_spec.
    + by intros ?%requestHasTools_spec.
Qed.

Lemma hasTools_on_selected_witness :
  exists req body answer,
    RequestResponsePair.request toolsOnlyPair = Some req
    /\ Request.body req = Some body
    /\ hasTools toolsOnlyPair = Some answer
    /\ (answer = true <-> HasNonEmptyTools toolsOnlyPair).
Proof.
  refine (proj2 (hasTools_on_selected [bareResponse; toolsOnlyPair])
            toolsOnlyPair _).
  vm_compute. reflexivity.
Defined.

(** X5.  [filterRequestsWithTools] agrees with the exported [hasTools]
    wherever that one is defined, and drops the records on which it would
    throw: the filter keeps, in order, exactly the records on which
    [hasTools] returns true.  The two filters of the selector can be applied
    in either order. *)
Theorem filterRequestsWithTools_hasTools (pairs : list RequestResponsePair.t) :
  (forall r, r ∈ filterRequestsWithTools pairs
     <-> r ∈ pairs /\ hasTools r = Some true)
  /\ sublist (filterRequestsWithTools pairs) pairs
  /\ filterRequestsWithTools (filterNonHaikuRequests pairs)
     = filterNonHaikuRequests (filterRequestsWithTools pairs).
Proof.
  split; [|split].
  - intros r. unfold filterRequestsWithTools. rewrite elem_of_List_filter.
    assert (requestHasTools r = true <-> hasTools r = Some true) as ->; [|done].
    unfold requestHasTools, hasTools, toolsOf, bodyOf.
    destruct (RequestResponsePair.request r) as [req|]; [|done].
    destruct (Request.body req) as [body|]; [|done].
    destruct (RequestBody.tools body); [|done].
    split; [by intros -> | by intros [= ->]].
  - apply List_filter_sublist.
  - unfold filterRequestsWithTools, filterNonHaikuRequests.
    induction pairs as [|p pairs IH]; simpl; [done|].
    destruct (isNonHaiku p) eqn:Hn, (requestHasTools p) eqn:Ht; simpl;
      rewrite ?Hn, ?Ht, IH; done.
Qed.

(** X4.  When [hasTools] answers false on the selected record (the case in
    which the caller prints its warning), the selection came from the
    fallback: no surviving record has both tools and a system-block list,
    and the record is the first survivor.  When some surviving record has
    both, the answer on the selected record is true. *)
Theorem hasTools_false_is_fallback (pairs : list RequestResponsePair.t)
    (r : RequestResponsePair.t) :
  selectBestRequest pairs = Ok r ->
  (hasTools r = Some false ->
   requestsWithToolsAndSystemPrompt pairs = []
   /\ exists rest, filterNonHaikuRequests pairs = r :: rest)
  /\ (requestsWithToolsAndSystemPrompt pairs <> [] -> hasTools r = Some true).
Proof.
  intros Hsel.
  destruct (selectBestRequest_Ok_inv pairs r Hsel) as (Hin & Htier & Hfb).
  apply elem_of_filterNonHaikuRequests in Hin as [_ Hs].
  destruct (survives_body r Hs) as [body Hbody].
  pose proof (hasTools_defined r body Hbody) as Hhas.
  assert (requestsWithToolsAndSystemPrompt pairs <> [] ->
          hasTools r = Some true) as Htrue.
  { intros Hne. specialize (Htier Hne).
    apply elem_of_tier_survivors in Htier as (_ & Ht & _).
    apply requestHasTools_spec in Ht. by rewrite Hhas, Ht. }
  split; [|done]. intros Hfalse.
  destruct (requestsWithToolsAndSystemPrompt pairs) as [|t ts] eqn:Ht.
  - split; [done|]. by apply Hfb.
  - rewrite Htrue in Hfalse; done.
Qed.

Lemma hasTools_false_is_fallback_witness :
  requestsWithToolsAndSystemPrompt [mixedCaseHaikuPair; plainPair] = []
  /\ exists rest,
       filterNonHaikuRequests [mixedCaseHaikuPair; plainPair]
       = plainPair :: rest.
Proof.
  refine (proj1 (hasTools_false_is_fallback
                   [mixedCaseHaikuPair; plainPair] plainPair _) _);
    vm_compute; reflexivity.
Defined.

End SelectorMore.

(** ** The tool cataloguer *)

Section CataloguerMore.
Import RequestFilter CatalogueSpec CatalogueSamples.

Lemma List_filter_all {A : Type} (f : A -> bool) (l : list A) :
  (forall x, x ∈ l -> f x = true) -> List.filter f l = l.
Proof.
  induction l as [|a l IH]; simpl; [done|]. intros H.
  rewrite (H a) by (by left). f_equal. apply IH. intros x Hx. apply H. by right.
Qed.

Lemma sort_sorted_id {A : Type} (compare : A -> A -> Z) (R : A -> A -> Prop)
    (l : list A) :
  (forall a b, R a b -> ~ (0 < compare a b)%Z) ->
  StronglySorted R l -> sort compare l = l.
Proof.
  intros HR. induction 1 as [|x l Hsorted IH Hall]; simpl; [done|].
  rewrite IH. destruct l as [|y l]; simpl; [done|].
  inversion Hall as [|? ? Hxy _]; subst.
  apply HR in Hxy. by rewrite (proj2 (Z.ltb_ge _ _)) by lia.
Qed.

Lemma insert_filter {A : Type} (compare : A -> A -> Z) (P : A -> bool)
    (x : A) (l : list A) :
  (forall y, P x = true -> P y = true -> ~ (0 < compare x y)%Z) ->
  List.filter P (insert compare x l) = List.filter P (x :: l).
Proof.
  intros Hkeep. induction l as [|y l IH]; simpl; [done|].
  destruct (0 <? compare x y)%Z eqn:Hc; [|done].
  apply Z.ltb_lt in Hc. simpl. rewrite IH. simpl.
  destruct (P x) eqn:Hx, (P y) eqn:Hy; try done.
  by destruct (Hkeep y).
Qed.

Lemma sort_filter {A : Type} (compare : A -> A -> Z) (P : A -> bool)
    (l : list A) :
  (forall x y, P x = true -> P y = true -> ~ (0 < compare x y)%Z) ->
  List.filter P (sort compare l) = List.filter P l.
Proof.
  intros Hkeep. induction l as [|x l IH]; simpl; [done|].
  rewrite insert_filter by (intros y; apply Hkeep). simpl. by rewrite IH.
Qed.

Variable localeCompare : jsstring -> jsstring -> Z.

Hypothesis localeCompare_total :
  forall a b, (0 < localeCompare a b)%Z -> (localeCompare b a <= 0)%Z.
Hypothesis localeCompare_trans :
  forall a b c,
    (localeCompare a b <= 0)%Z -> (localeCompare b c <= 0)%Z ->
    (localeCompare a c <= 0)%Z.

Lemma filterAndSortTools_run (h : gmap ref (list Tool.t)) (arr : ref)
    (tools : list Tool.t) :
  h !! arr = Some tools ->
  filterAndSortTools localeCompare (Some arr) h
  = Some (fresh (dom h),
          <[fresh (dom h) :=
              sort (byName localeCompare) (List.filter isNotMcp tools)]> h).
Proof.
  intros Harr.
  unfold filterAndSortTools, andThen, arrayFilter, andThen, read, alloc,
    arraySort.
  by rewrite Harr, lookup_insert_eq, insert_insert_eq.
Qed.

(** X6.  Cataloguing is idempotent: when [filterAndSortTools] is run on the
    array it returned, it returns one more new array with the same tools in
    the same order, and neither the first result nor the original input is
    changed by the second run. *)
Theorem filterAndSortTools_idempotent (h : gmap ref (list Tool.t)) (arr : ref)
    (tools : list Tool.t) :
  h !! arr = Some tools ->
  exists out1 h1 out2 h2 result,
    filterAndSortTools localeCompare (Some arr) h = Some (out1, h1)
    /\ filterAndSortTools localeCompare (Some out1) h1 = Some (out2, h2)
    /\ out2 <> out1 /\ out2 <> arr
    /\ h1 !! out1 = Some result
    /\ h2 !! out2 = Some result
    /\ h2 !! out1 = Some result
    /\ h2 !! arr = Some tools.
Proof.
  intros Harr.
  set (result := sort (byName localeCompare) (List.filter isNotMcp tools)).
  set (out1 := fresh (dom h)).
  set (h1 := <[out1 := result]> h).
  assert (h !! out1 = None) as Hfresh1 by apply fresh_ref_unused.
  assert (h1 !! out1 = Some result) as Hout1 by apply lookup_insert_eq.
  assert (h1 !! arr = Some tools) as Harr1.
  { unfold h1. rewrite lookup_insert_ne; [done|]. intros <-. congruence. }
  set (out2 := fresh (dom h1)).
  assert (h1 !! out2 = None) as Hfresh2 by apply fresh_ref_unused.
  assert (sort (byName localeCompare) (List.filter isNotMcp result) = result)
    as Hsame.
  { rewrite List_filter_all.
    - apply (sort_sorted_id _ (NameLe localeCompare)).
      + unfold NameLe, byName. intros a b. lia.
      + by apply sort_byName_sorted.
    - intros tool Htool. unfold result in Htool.
      rewrite (elem_of_Permutation_proper _ _ _ (sort_Permutation _ _)) in Htool.
      by apply elem_of_List_filter in Htool as [_ ?]. }
  exists out1, h1, out2, (<[out2 := result]> h1), result.
  split; [by apply filterAndSortTools_run|].
  split; [by rewrite (filterAndSortTools_run h1 out1 result), Hsame|].
  split; [intros E; congruence|]. split; [intros E; congruence|].
  split; [done|]. split; [apply lookup_insert_eq|].
  split; rewrite lookup_insert_ne; try done; intros E; congruence.
Qed.

(** X7.  The cataloguer is stable: for every name, the tools of that name
    stand in the result in the order in which the input has them (tools
    whose name begins with "mcp__" left out), so tools with the same name
    are never swapped. *)
Theorem filterAndSortTools_stable (h : gmap ref (list Tool.t)) (arr : ref)
    (tools : list Tool.t) :
  h !! arr = Some tools ->
  exists out result,
    filterAndSortTools localeCompare (Some arr) h
    = Some (out, <[out := result]> h)
    /\ forall name,
         List.filter (hasName name) result
         = List.filter (hasName name) (List.filter isNotMcp tools).
Proof.
  intros Harr. eexists _, _. split; [by apply filterAndSortTools_run|].
  intros name. apply sort_filter.
  intros x y Hx%bool_decide_eq_true Hy%bool_decide_eq_true Hgt.
  unfold byName in Hgt. rewrite Hx, Hy in Hgt.
  pose proof (localeCompare_total name name Hgt). lia.
Qed.

End CataloguerMore.

Lemma filterAndSortTools_idempotent_witness :
  exists out1 h1 out2 h2 result,
    RequestFilter.filterAndSortTools CatalogueSpec.firstUnitCompare
      (Some 1%positive) {[ 1%positive := CatalogueSamples.duplicateTools ]}
    = Some (out1, h1)
    /\ RequestFilter.filterAndSortTools CatalogueSpec.firstUnitCompare
         (Some out1) h1 = Some (out2, h2)
    /\ out2 <> out1 /\ out2 <> 1%positive
    /\ h1 !! out1 = Some result
    /\ h2 !! out2 = Some result
    /\ h2 !! out1 = Some result
    /\ h2 !! 1%positive = Some CatalogueSamples.duplicateTools.
Proof.
  apply (filterAndSortTools_idempotent CatalogueSpec.firstUnitCompare
           firstUnitCompare_total firstUnitCompare_trans).
  apply lookup_singleton_eq.
Defined.

Lemma filterAndSortTools_stable_witness :
  exists out result,
    RequestFilter.filterAndSortTools CatalogueSpec.firstUnitCompare
      (Some 1%positive) {[ 1%positive := CatalogueSamples.duplicateTools ]}
    = Some (out, <[out := result]>
                   {[ 1%positive := CatalogueSamples.duplicateTools ]})
    /\ forall name,
         List.filter (CatalogueSamples.hasName name) result
         = List.filter (CatalogueSamples.hasName name)
             (List.filter RequestFilter.isNotMcp
                CatalogueSamples.duplicateTools).
Proof.
  apply (filterAndSortTools_stable CatalogueSpec.firstUnitCompare
           firstUnitCompare_total).
  apply lookup_singleton_eq.
Defined.

(** ** The header reindentation *)

Section FormatterMore.
Import OutputFormatter FormatterSpec ReportSpec.

Lemma split_app_at_sep (sep : ascii) (a b : jsstring) :
  split sep (a ++ sep :: b) = split sep a ++ split sep b.
Proof.
  induction a as [|c a IH]; simpl.
  - by rewrite decide_True.
  - destruct (decide (c = sep)) as [->|Hc]; [by rewrite IH|].
    rewrite IH. pose proof (split_nonempty sep a).
    by destruct (split sep a).
Qed.

Lemma join_app (sep : jsstring) (xs ys : list jsstring) :
  xs <> [] -> ys <> [] ->
  join sep (xs ++ ys) = join sep xs ++ sep ++ join sep ys.
Proof.
  intros Hxs Hys. induction xs as [|x xs IH]; [done|].
  destruct xs as [|x' xs].
  - simpl. by destruct ys.
  - rewrite <- app_comm_cons, (join_cons sep x ((x' :: xs) ++ ys)) by done.
    rewrite IH by done. rewrite (join_cons sep x (x' :: xs)) by done.
    by rewrite <- !app_assoc.
Qed.

(** X8.  [indentHeaders] works on each line by itself: reindenting two
    texts joined by a line feed gives the two reindented texts joined by a
    line feed. *)
Theorem indentHeaders_app (a b : jsstring) :
  indentHeaders (a ++ LF :: b) = indentHeaders a ++ LF :: indentHeaders b.
Proof.
  unfold indentHeaders. rewrite split_app_at_sep, map_app.
  rewrite join_app; [done| |].
  - pose proof (split_nonempty LF a). by destruct (split LF a).
  - pose proof (split_nonempty LF b). by destruct (split LF b).
Qed.

Lemma matchesHeader_hash (line : jsstring) :
  matchesHeader line = true -> matchesHeader ("#"%char :: line) = true.
Proof.
  destruct line as [|c rest]; [done|]. simpl.
  destruct (decide (c = "#"%char)) as [->|]; [|done]. simpl. done.
Qed.

Lemma indentLine_iter (n : nat) (line : jsstring) :
  Nat.iter n indentLine line
  = if matchesHeader line then replicate n "#"%char ++ line else line.
Proof.
  induction n as [|n IH]; simpl.
  - by destruct (matchesHeader line).
  - rewrite IH. unfold indentLine.
    destruct (matchesHeader line) eqn:Hm; [|by rewrite Hm].
    assert (matchesHeader (replicate n "#"%char ++ line) = true) as ->; [|done].
    clear IH. induction n as [|n IHn]; simpl; [done|].
    by apply matchesHeader_hash in IHn.
Qed.

Lemma split_indentHeaders_iter (n : nat) (text : jsstring) :
  split LF (Nat.iter n indentHeaders text)
  = map (Nat.iter n indentLine) (split LF text).
Proof.
  induction n as [|n IH]; simpl.
  - by rewrite map_id.
  - rewrite split_indentHeaders, IH, map_map. done.
Qed.

(** X9.  Reindenting [n] times (the report does it once for the user
    message and the system prompt and twice for a tool description) keeps
    the lines of the text and their order, puts exactly [n] more ['#'] in
    front of every header line, and leaves every other line as it is. *)
Theorem indentHeaders_iter (n : nat) (text : jsstring) :
  Forall2
    (fun line line' =>
       (IsHeaderLine line -> line' = replicate n "#"%char ++ line)
       /\ (~ IsHeaderLine line -> line' = line))
    (split LF text) (split LF (Nat.iter n indentHeaders text)).
Proof.
  rewrite split_indentHeaders_iter.
  apply Forall2_fmap_r, Forall_Forall2_diag, Forall_forall.
  intros line _. unfold compose. rewrite indentLine_iter, <- matchesHeader_spec.
  destruct (matchesHeader line); split; done.
Qed.

Lemma leading_hashes_unique (a b : nat) (w w' : ascii) (r r' : jsstring) :
  w <> "#"%char -> w' <> "#"%char ->
  replicate a "#"%char ++ w :: r = replicate b "#"%char ++ w' :: r' ->
  a = b.
Proof.
  intros Hw Hw'. revert b. induction a as [|a IH]; intros [|b]; simpl;
    intros H; try done.
  - injection H as -> _. done.
  - injection H as <- _. done.
  - f_equal. apply IH. by injection H.
Qed.

Lemma header_level_depth (n level : nat) (text line : jsstring) :
  line ∈ split LF (Nat.iter n indentHeaders text) ->
  HeaderOfLevel level line ->
  n < level.
Proof.
  rewrite split_indentHeaders_iter.
  intros Hin (hashes & w & rest & -> & Hline & Hw).
  apply list_elem_of_fmap in Hin as (orig & Horig & _).
  rewrite indentLine_iter in Horig.
  assert (IsHeaderLine line) as Hheader by (by exists hashes, w, rest).
  destruct (matchesHeader orig) eqn:Hm.
  - apply matchesHeader_spec in Hm as (k & w0 & rest0 & -> & Hw0).
    rewrite Hline, app_assoc, <- replicate_add in Horig.
    apply leading_hashes_unique in Horig; [lia| |]; by intros ->.
  - subst orig. apply matchesHeader_spec in Hheader. congruence.
Qed.

(** X10.  After [n] reindentations no shallow header is left: every line
    of the result that is a header has more than [n] ['#'] in front.  So the
    user message and the system prompt bring no first-level header into the
    report, and a tool description none of the first two levels. *)
Theorem indentHeaders_depth (n hashes : nat) (text line rest : jsstring)
    (w : ascii) :
  line ∈ split LF (Nat.iter n indentHeaders text) ->
  line = replicate (S hashes) "#"%char ++ w :: rest ->
  isWhiteSpace w = true ->
  n <= hashes.
Proof.
  intros Hin Hline Hw.
  assert (n < S hashes); [|lia].
  apply (header_level_depth n (S hashes) text line Hin).
  by exists hashes, w, rest.
Qed.

Lemma indentHeaders_depth_witness :
  lit "### Usage"
    ∈ split LF (Nat.iter 2 indentHeaders (lit "# Usage" ++ [LF] ++ lit "plain"))
  /\ 2 <= 2.
Proof.
  assert (lit "### Usage"
            ∈ split LF (Nat.iter 2 indentHeaders
                          (lit "# Usage" ++ [LF] ++ lit "plain"))) as Hin
      by (vm_compute; apply list_elem_of_here).
  split; [exact Hin|].
  exact (indentHeaders_depth 2 2 _ _ (lit "Usage") " "%char
           Hin eq_refl eq_refl).
Defined.

Lemma indentLine_inj (a b : jsstring) : indentLine a = indentLine b -> a = b.
Proof.
  unfold indentLine.
  destruct (matchesHeader a) eqn:Ha, (matchesHeader b) eqn:Hb; intros H.
  - by injection H.
  - subst b. apply matchesHeader_hash in Ha. congruence.
  - subst a. apply matchesHeader_hash in Hb. congruence.
  - done.
Qed.

(** X11.  Reindenting loses nothing: two texts with the same reindented
    form are the same text. *)
Theorem indentHeaders_inj (a b : jsstring) :
  indentHeaders a = indentHeaders b -> a = b.
Proof.
  intros H. apply (f_equal (split LF)) in H.
  rewrite !split_indentHeaders in H.
  assert (split LF a = split LF b) as Hlines.
  { revert H. generalize (split LF a) (split LF b).
    intros la. induction la as [|x la IH]; intros [|y lb]; simpl; try done.
    intros [= Hxy Hrest]. f_equal; [by apply indentLine_inj | by apply IH]. }
  by rewrite <- (join_split LF a), <- (join_split LF b), Hlines.
Qed.

Lemma indentHeaders_inj_witness :
  lit "# H" ++ [LF] ++ lit "body" = lit "# H" ++ [LF] ++ lit "body".
Proof.
  apply indentHeaders_inj. reflexivity.
Defined.

(** *** The report as lines *)

Lemma split_sep_cons (sep : ascii) (s : jsstring) :
  split sep (sep :: s) = [] :: split sep s.
Proof. simpl. by rewrite decide_True. Qed.

Variable JSON_stringify : JSON -> nat -> jsstring.

Lemma split_formatTool (tool : Tool.t) :
  LF ∉ Tool.name tool ->
  split LF (formatTool JSON_stringify tool) = toolLines JSON_stringify tool.
Proof.
  intros Hname. unfold formatTool, toolLines, descriptionLines.
  rewrite (app_assoc (lit "## ")). cbn [app].
  rewrite split_app_sep, split_sep_cons, split_app_at_sep; [done|].
  intros [Hin|Hin]%elem_of_app; [|done].
  revert Hin. apply not_elem_of_check. reflexivity.
Qed.

Lemma split_toolSeparator (a b : jsstring) :
  split LF (a ++ toolSeparator ++ b) = split LF a ++ ruleLines ++ split LF b.
Proof.
  unfold toolSeparator. rewrite <- !app_assoc. cbn [app].
  rewrite split_app_at_sep, split_sep_cons.
  rewrite (split_app_sep LF (lit "---"))
    by (apply not_elem_of_check; reflexivity).
  by rewrite split_sep_cons.
Qed.

Lemma split_formatTools (tool : Tool.t) (others : list Tool.t) :
  Forall (fun t => LF ∉ Tool.name t) (tool :: others) ->
  split LF (formatTools JSON_stringify (tool :: others))
  = toolLines JSON_stringify tool
    ++ concat (map (fun next => ruleLines ++ toolLines JSON_stringify next)
                 others).
Proof.
  unfold formatTools. revert tool.
  induction others as [|next others IH]; intros tool Hnames;
    inversion Hnames as [|? ? Hname Hrest]; subst.
  - cbn [map join concat]. rewrite app_nil_r. by apply split_formatTool.
  - cbn [map]. rewrite join_cons by done.
    specialize (IH next Hrest). cbn [map] in IH.
    rewrite split_toolSeparator, IH, split_formatTool by done.
    cbn [concat]. by rewrite <- !app_assoc.
Qed.

(** X25.  The report can be read back line by line.  When the version
    label and the release date have no line feed, the lines of the document
    that [formatOutput] builds are the title, the release date, and the
    three sections, each with a header line of its own, a blank line before
    its content and one after it.  Every header that the user message or
    the system prompt brings into the report is of the second level or
    deeper, so the first-level headers of those sections are the ones
    [formatOutput] wrote. *)
Theorem formatOutput_lines (data : OutputData.t) :
  LF ∉ OutputData.versionLabel data ->
  LF ∉ OutputData.releaseDate data ->
  let user := split LF (indentHeaders (OutputData.userMessage data)) in
  let system := split LF (indentHeaders (OutputData.systemPrompt data)) in
  split LF (formatOutput JSON_stringify data)
  = [lit "# Claude Code Version " ++ OutputData.versionLabel data; [];
     lit "Release Date: " ++ OutputData.releaseDate data; [];
     lit "# User Message"; []]
    ++ user ++ [[]; lit "# System Prompt"; []]
    ++ system ++ [[]; lit "# Tools"; []]
    ++ split LF (formatTools JSON_stringify (OutputData.tools data)) ++ [[]]
  /\ Forall (fun line => forall level, HeaderOfLevel level line -> 2 <= level)
       (user ++ system).
Proof.
  intros Hlabel Hdate user system. split.
  - unfold formatOutput. cbv zeta.
    rewrite (app_assoc (lit "# Claude Code Version ")).
    rewrite (app_assoc (lit "Release Date: ")). cbn [app].
    rewrite split_app_sep, split_sep_cons.
    2:{ intros [Hin|Hin]%elem_of_app; [|done].
        revert Hin. apply not_elem_of_check. reflexivity. }
    rewrite split_app_sep, split_sep_cons.
    2:{ intros [Hin|Hin]%elem_of_app; [|done].
        revert Hin. apply not_elem_of_check. reflexivity. }
    rewrite (split_app_sep LF (lit "# User Message")), split_sep_cons
      by (apply not_elem_of_check; reflexivity).
    rewrite split_app_at_sep, split_sep_cons.
    rewrite (split_app_sep LF (lit "# System Prompt")), split_sep_cons
      by (apply not_elem_of_check; reflexivity).
    rewrite split_app_at_sep, split_sep_cons.
    rewrite (split_app_sep LF (lit "# Tools")), split_sep_cons
      by (apply not_elem_of_check; reflexivity).
    rewrite split_app_at_sep. reflexivity.
  - apply Forall_app. split; apply Forall_forall; intros line Hin level Hlevel.
    + by apply (header_level_depth 1 level (OutputData.userMessage data) line).
    + by apply (header_level_depth 1 level (OutputData.systemPrompt data) line).
Qed.

(** X26.  The tools section can be read back line by line as well.  When
    no tool name has a line feed, the lines of what [formatTools] builds for
    a non-empty list are, tool after tool, the subheading with the name, a
    blank line, the lines of the description and the lines of the schema,
    with a blank line, the rule and a blank line between two tools.  Every
    header of a description is of the third level or deeper, below the
    subheading of its tool. *)
Theorem formatTools_lines (tool : Tool.t) (others : list Tool.t) :
  Forall (fun t => LF ∉ Tool.name t) (tool :: others) ->
  split LF (formatTools JSON_stringify (tool :: others))
  = toolLines JSON_stringify tool
    ++ concat (map (fun next => ruleLines ++ toolLines JSON_stringify next)
                 others)
  /\ forall t line level,
       line ∈ descriptionLines t ->
       HeaderOfLevel level line -> 3 <= level.
Proof.
  intros Hnames. split; [by apply split_formatTools|].
  intros t line level Hin Hlevel.
  by apply (header_level_depth 2 level (Tool.description t) line).
Qed.

End FormatterMore.

Lemma formatOutput_lines_witness :
  split LF (OutputFormatter.formatOutput ReportSpec.sampleStringify
              ReportSpec.headedReport)
  = [lit "# Claude Code Version 1.0.0"; [];
     lit "Release Date: 2025-01-01"; [];
     lit "# User Message"; [];
     lit "## Task"; lit "do it"; [];
     lit "# System Prompt"; [];
     lit "## Tone"; lit "### Style"; [];
     lit "# Tools"; []]
    ++ split LF (OutputFormatter.formatTools ReportSpec.sampleStringify
                   [ReportSpec.headedTool; ReportSpec.headedTool])
    ++ [[]].
Proof.
  refine (proj1 (formatOutput_lines ReportSpec.sampleStringify
                   ReportSpec.headedReport _ _));
    apply not_elem_of_check; reflexivity.
Defined.

Lemma formatTools_lines_witness :
  split LF (OutputFormatter.formatTools ReportSpec.sampleStringify
              [ReportSpec.headedTool; ReportSpec.headedTool])
  = [lit "## Read"; []; lit "### Usage"; lit "#### Notes"; lit "plain";
     lit "{}";
     []; lit "---"; [];
     lit "## Read"; []; lit "### Usage"; lit "#### Notes"; lit "plain";
     lit "{}"].
Proof.
  refine (proj1 (formatTools_lines ReportSpec.sampleStringify
                   ReportSpec.headedTool [ReportSpec.headedTool] _)).
  repeat constructor; apply not_elem_of_check; reflexivity.
Defined.

(** ** The content normaliser *)

Section ExtractorMore.
Import ContentExtractor ExtractorSpec ExtractorSamples.

Lemma find_isUser_none (messages : list Message.t) :
  (forall m, m ∈ messages -> Message.role m <> lit "user") ->
  List.find isUser messages = None.
Proof.
  induction messages as [|m messages IH]; simpl; [done|]. intros H.
  unfold isUser at 1. rewrite bool_decide_eq_false_2 by (apply H; by left).
  apply IH. intros x Hx. apply H. by right.
Qed.

(** X12.  [findAndExtractUserMessage] reads the first message whose role is
    "user" and nothing else: messages of other roles in front of it and all
    messages behind it, further user messages included, do not matter.
    Without a user message the result is the empty string. *)
Theorem findAndExtractUserMessage_first :
  (forall messages,
      (forall m, m ∈ messages -> Message.role m <> lit "user") ->
      findAndExtractUserMessage messages = [])
  /\ (forall before m after,
        (forall x, x ∈ before -> Message.role x <> lit "user") ->
        Message.role m = lit "user" ->
        findAndExtractUserMessage (before ++ m :: after)
        = extractUserMessage (Some m)).
Proof.
  split.
  - intros messages H. unfold findAndExtractUserMessage.
    by rewrite find_isUser_none.
  - intros before m after Hbefore Hm. unfold findAndExtractUserMessage.
    f_equal. induction before as [|x before IH]; simpl.
    + unfold isUser. by rewrite bool_decide_eq_true_2.
    + unfold isUser at 1.
      rewrite bool_decide_eq_false_2 by (apply Hbefore; by left).
      apply IH. intros y Hy. apply Hbefore. by right.
Qed.

Lemma findAndExtractUserMessage_first_witness :
  findAndExtractUserMessage
    [message "system" "rules"; message "user" "first";
     message "assistant" "reply"; message "user" "second"]
  = lit "first".
Proof.
  refine (proj2 findAndExtractUserMessage_first
            [message "system" "rules"] (message "user" "first")
            [message "assistant" "reply"; message "user" "second"] _ _).
  - intros x ->%list_elem_of_singleton. vm_compute. discriminate.
  - reflexivity.
Defined.

Lemma textsOfBlocks_count (items : list MessageContent.t) :
  length (textsOfBlocks items) = length (List.filter isTextItem items).
Proof. by rewrite <- extract_blocks_texts, length_map. Qed.

(** X13.  For list content, the result of [extractUserMessage] can be taken
    apart again: when at least one block is tagged "text" and no text has a
    line feed in it, the lines of the result are the texts of those blocks,
    one line per block and in block order; a block tagged "text" that has
    no text still gives its own, empty, line. *)
Theorem extractUserMessage_lines (role : jsstring)
    (items : list MessageContent.t) :
  textsOfBlocks items <> [] ->
  Forall (fun text => LF ∉ text) (textsOfBlocks items) ->
  split LF (extractUserMessage
              (Some {| Message.role := role;
                       Message.content := ContentArray items |}))
  = textsOfBlocks items
  /\ length (textsOfBlocks items) = length (List.filter isTextItem items).
Proof.
  intros Hne Hlf. split; [|apply textsOfBlocks_count].
  simpl. rewrite extract_blocks_texts. by apply split_join.
Qed.

Lemma extractUserMessage_lines_witness :
  split LF (extractUserMessage
              (userMessage
                 (ContentArray
                    [textBlock "a"; imageBlock;
                     {| MessageContent.type := lit "text";
                        MessageContent.text := None;
                        MessageContent.cache_control := None |};
                     textBlock "b"])))
  = [lit "a"; []; lit "b"].
Proof.
  refine (proj1 (extractUserMessage_lines _ _ _ _)).
  - discriminate.
  - repeat constructor; apply not_elem_of_check; reflexivity.
Defined.

Lemma extractSystemPrompt_texts (body : RequestBody.t) :
  extractSystemPrompt body
  = join [LF] (systemTexts (default [] (RequestBody.system body))).
Proof.
  unfold extractSystemPrompt. f_equal.
  induction (default [] (RequestBody.system body)) as [|b blocks IH];
    simpl; [done|].
  unfold isTextBlock at 1.
  destruct (decide (SystemBlock.type b = lit "text")) as [Ht|Ht].
  - rewrite bool_decide_eq_true_2 by done. simpl. by rewrite IH.
  - by rewrite bool_decide_eq_false_2.
Qed.

(** X14.  [extractSystemPrompt] treats a missing system-block list like an
    empty one and looks at the blocks tagged "text" only: without such a
    block the prompt is the empty string, and blocks of other types never
    show in it.  When no text has a line feed in it, the lines of the prompt
    are the texts of the "text" blocks, in block order. *)
Theorem extractSystemPrompt_lines (body : RequestBody.t) :
  let texts := systemTexts (default [] (RequestBody.system body)) in
  (RequestBody.system body = None -> extractSystemPrompt body = [])
  /\ (texts = [] -> extractSystemPrompt body = [])
  /\ (texts <> [] -> Forall (fun text => LF ∉ text) texts ->
      split LF (extractSystemPrompt body) = texts).
Proof.
  intros texts. rewrite extractSystemPrompt_texts. fold texts.
  split; [|split].
  - intros Hnone. unfold texts. by rewrite Hnone.
  - by intros ->.
  - intros Hne Hlf. by apply split_join.
Qed.

Lemma extractSystemPrompt_lines_witness :
  split LF (extractSystemPrompt
              (bodyWithSystem
                 (Some [SelectorSpec.sampleSystemBlock "You are Claude";
                        {| SystemBlock.type := lit "other";
                           SystemBlock.text := lit "Ignored";
                           SystemBlock.cache_control := None |};
                        SelectorSpec.sampleSystemBlock "Be helpful"])))
  = [lit "You are Claude"; lit "Be helpful"].
Proof.
  refine (proj2 (proj2 (extractSystemPrompt_lines _)) _ _).
  - discriminate.
  - repeat constructor; apply not_elem_of_check; reflexivity.
Defined.

End ExtractorMore.

(** ** The trace stream parser *)

Section ParserMore.
Import JsonlParser ParserSpec.

Lemma trim_app_white_l (ws s : jsstring) :
  Forall (fun c => isWhiteSpace c = true) ws -> trim (ws ++ s) = trim s.
Proof.
  induction 1 as [|c ws Hc _ IH]; [done|].
  by rewrite <- app_comm_cons, trim_cons_white.
Qed.

Lemma trim_app_white_r (s ws : jsstring) :
  Forall (fun c => isWhiteSpace c = true) ws -> trim (s ++ ws) = trim s.
Proof.
  intros H. revert s. induction H as [|c ws Hc _ IH]; intros s.
  - by rewrite app_nil_r.
  - replace (s ++ c :: ws) with ((s ++ [c]) ++ ws) by (by rewrite <- app_assoc).
    by rewrite IH, trim_snoc_white.
Qed.


Variable JSON_parse : jsstring -> Result RequestResponsePair.t.


(** X16.  White space around the capture does not matter: with any run of
    white space (blank lines, the final line feed) put in front of the text
    and any behind it, [parseJsonl] hands the same lines to the decoder and
    gives the same result. *)
Theorem parseJsonl_padding (leading content trailing : jsstring) :
  Forall (fun c => isWhiteSpace c = true) leading ->
  Forall (fun c => isWhiteSpace c = true) trailing ->
  parseJsonl JSON_parse (leading ++ content ++ trailing)
  = parseJsonl JSON_parse content.
Proof.
  intros Hl Ht. unfold parseJsonl.
  by rewrite trim_app_white_l, trim_app_white_r.
Qed.


End ParserMore.


Lemma parseJsonl_padding_witness :
  JsonlParser.parseJsonl (fun line => Throw (SyntaxError line))
    ([LF] ++ lit "x" ++ lit "  " ++ [LF])
  = JsonlParser.parseJsonl (fun line => Throw (SyntaxError line)) (lit "x").
Proof.
  apply (parseJsonl_padding _ [LF] (lit "x") (lit "  " ++ [LF]));
    repeat constructor.
Defined.

(** ** The source patcher *)

Section PatcherMore.
Import CliPatcher PatcherSpec.

(** The result of a call on a text of the shape that is rewritten. *)
Lemma patch_shape_result (pre sig body post : jsstring) (w : nat) :
  let decl := functionToken ++ sig ++ ["{"%char] in
  let text := pre ++ decl ++ body ++ "}"%char :: post in
  FirstOccurrence warningText text w ->
  length pre <= w ->
  (forall j, length pre < j <= w -> ~ OccursAt functionToken text j) ->
  "{"%char ∉ sig ->
  Balanced body ->
  patchCliVersionCheck text
  = Ok (rewritten (pre ++ decl ++ patchComment ++ post)).
Proof.
  intros decl text Hfirst Hbefore Hnearest Hsig Hbody. unfold text, decl.
  rewrite (classify_result _ _
             (shape_classified pre sig body post Hsig Hbody w
                Hfirst Hbefore Hnearest)).
  cbn [outcomeResult]. do 2 f_equal.
  exact (shape_rewritten pre sig body post).
Qed.

Lemma patch_absent (text : jsstring) :
  ~ Contains warningText text ->
  patchCliVersionCheck text = Ok (unpatched text).
Proof. intros H. apply (classify_result text MarkerAbsent). by constructor. Qed.

(** X18.  Patching keeps the braces of the script in balance: whatever a
    successful call returns, a count of the braces over the whole content
    (up on an opening brace, down on a closing one) ends where the same
    count over the input ends.  The comment that replaces the body and its
    closing brace closes exactly the one brace that the declaration
    opened. *)
Theorem patchCliVersionCheck_brace_balance (text : jsstring)
    (r : PatchResult.t) (depth : Z) :
  patchCliVersionCheck text = Ok r ->
  depthAfter depth (PatchResult.content r) = depthAfter depth text.
Proof.
  intros Hrun. destruct (PatchResult.patched r) eqn:Hpatched.
  - destruct (patched_has_shape text r Hrun Hpatched)
      as (pre & sig & body & post & w & Htext & Hw & Hle & Hnear & Hsig & Hbal).
    pose proof (patch_shape_result pre sig body post w) as Hres.
    cbv zeta in Hres. rewrite <- Htext in Hres.
    rewrite Hres in Hrun by done.
    assert (PatchResult.content r
            = pre ++ (functionToken ++ sig ++ ["{"%char])
              ++ patchComment ++ post) as ->
        by (by injection Hrun as <-).
    rewrite Htext.
    assert (forall d, depthAfter d patchComment
                      = depthAfter d (body ++ ["}"%char])) as Hsame.
    { intros d. rewrite (depthAfter_shift d patchComment), depthAfter_app.
      rewrite (depthAfter_shift d body). destruct Hbal as [-> _].
      change (depthAfter 0 patchComment) with (-1)%Z.
      change (depthAfter (d + 0) ["}"%char]) with (d + 0 - 1)%Z. lia. }
    replace (body ++ "}"%char :: post) with ((body ++ ["}"%char]) ++ post)
      by (by rewrite <- app_assoc).
    rewrite !depthAfter_app, Hsame. by rewrite !depthAfter_app.
  - destruct (patchCliVersionCheck_classified text) as (outcome & Hclass & Hres).
    rewrite Hrun in Hres.
    destruct Hclass; cbn [outcomeResult] in Hres; try discriminate.
    + by injection Hres as ->.
    + injection Hres as ->. discriminate.
Qed.

Lemma patchCliVersionCheck_brace_balance_witness :
  depthAfter 0 sampleRewritten = depthAfter 0 sampleScript.
Proof.
  apply (patchCliVersionCheck_brace_balance sampleScript
           (rewritten sampleRewritten) 0).
  vm_compute. reflexivity.
Defined.

Lemma occursAt_app_r (p a b : jsstring) (j : nat) :
  length a <= j -> OccursAt p (a ++ b) j -> OccursAt p b (j - length a).
Proof.
  intros Hj [Hlen Hstart]%occursAt_drop. apply occursAt_drop.
  rewrite length_app in Hlen. split; [lia|].
  by rewrite drop_app_ge in Hstart by done.
Qed.

(** X19.  Patching a second time is a no-op when the warning was in one
    function only: if the first occurrence of the marker starts after the
    opening brace of the function that is rewritten and the text behind
    that function has no marker, the content that the first call returns
    has no marker left, and a second call returns it as it is with
    [patched] false. *)
Theorem patchCliVersionCheck_twice (pre sig body post : jsstring) (w : nat) :
  let decl := functionToken ++ sig ++ ["{"%char] in
  let text := pre ++ decl ++ body ++ "}"%char :: post in
  let content := pre ++ decl ++ patchComment ++ post in
  FirstOccurrence warningText text w ->
  length pre + length decl <= w ->
  (forall j, length pre < j <= w -> ~ OccursAt functionToken text j) ->
  "{"%char ∉ sig ->
  Balanced body ->
  ~ Contains warningText post ->
  patchCliVersionCheck text = Ok (rewritten content)
  /\ ~ Contains warningText content
  /\ patchCliVersionCheck content = Ok (unpatched content).
Proof.
  intros decl text content Hfirst Hinside Hnearest Hsig Hbody Hpost.
  assert (~ Contains warningText content) as Hgone.
  { intros [j Hj]. apply Hpost.
    assert (length pre <= w) as Hle by lia.
    pose proof (shape_marker_gone pre sig body post w Hfirst Hle j Hinside Hj)
      as Hlate.
    exists (j - length (pre ++ decl ++ patchComment)).
    apply occursAt_app_r.
    - rewrite !length_app. fold decl in Hlate. exact Hlate || lia.
    - unfold content in Hj. by rewrite <- !app_assoc. }
  split; [|split; [done | by apply patch_absent]].
  apply (patch_shape_result pre sig body post w); try done.
  unfold decl in Hinside. lia.
Qed.

Lemma patchCliVersionCheck_twice_witness :
  patchCliVersionCheck sampleScript = Ok (rewritten sampleRewritten)
  /\ ~ Contains warningText sampleRewritten
  /\ patchCliVersionCheck sampleRewritten = Ok (unpatched sampleRewritten).
Proof.
  apply (patchCliVersionCheck_twice
           samplePre sampleSig sampleBody samplePost 68).
  - apply indexOf_Some. vm_compute. reflexivity.
  - vm_compute. lia.
  - pose proof (findFunctionIndex_spec sampleScript 68) as H.
    replace (findFunctionIndex sampleScript 68) with (Some 18) in H
      by (vm_compute; reflexivity).
    exact (proj2 (proj2 H)).
  - apply not_elem_of_check. vm_compute. reflexivity.
  - apply balanced_check. vm_compute. reflexivity.
  - apply indexOf_None. vm_compute. reflexivity.
Defined.

End PatcherMore.

(** ** The version comparator *)

Section VersionsMore.
Import VersionUtils NpmService VersionSpec.

Lemma digit_not_special (c : ascii) :
  isDigit c = true ->
  isWhiteSpace c = false /\ c <> "-"%char /\ c <> "+"%char /\ c <> "."%char.
Proof.
  unfold isDigit, isWhiteSpace. intros [H1 H2]%andb_true_iff.
  apply Nat.leb_le in H1, H2. split.
  - repeat (apply orb_false_intro); apply Nat.eqb_neq; lia.
  - repeat split; intros ->; vm_compute in H1, H2; lia.
Qed.

Lemma uint_digits (d : Decimal.uint) :
  Forall (fun c => isDigit c = true) (lit (NilEmpty.string_of_uint d)).
Proof. induction d; constructor; done. Qed.

Lemma digitsValue_stop (acc : Z) (rest : jsstring) :
  Suffix rest -> digitsValue acc rest = acc.
Proof. destruct rest as [|c rest]; simpl; [done|]. by intros ->. Qed.

Lemma digitsValue_uint (d : Decimal.uint) (acc : nat) (rest : jsstring) :
  Suffix rest ->
  digitsValue (Z.of_nat acc) (lit (NilEmpty.string_of_uint d) ++ rest)
  = Z.of_nat (Nat.of_uint_acc d acc).
Proof.
  intros Hrest. revert acc.
  induction d as [|d IH|d IH|d IH|d IH|d IH|d IH|d IH|d IH|d IH|d IH];
    intros acc;
    [ by apply digitsValue_stop | .. ];
    cbn [NilEmpty.string_of_uint Nat.of_uint_acc];
    rewrite <- IH; change (lit (String ?c ?s)) with (c :: lit s);
    cbn [app digitsValue];
    match goal with
    | |- context [isDigit ?c] => change (isDigit c) with true
    end;
    cbv iota; f_equal; rewrite Nat.tail_mul_spec;
    unfold digitValue; cbn [nat_of_ascii]; vm_compute (nat_of_ascii _ - 48);
    lia.
Qed.

Lemma to_uint_unorm (n : nat) : Nat.to_uint n = Decimal.unorm (Nat.to_uint n).
Proof.
  rewrite <- (DecimalNat.Unsigned.to_of (Nat.to_uint n)).
  by rewrite DecimalNat.Unsigned.of_to.
Qed.

Lemma decimal_digits (n : nat) :
  Forall (fun c => isDigit c = true) (decimal n).
Proof. apply uint_digits. Qed.

Lemma decimal_head (n : nat) :
  exists c s, decimal n = c :: s /\ isDigit c = true.
Proof.
  pose proof (decimal_digits n) as Hd. unfold decimal in *.
  destruct (Nat.to_uint n) as [| | | | | | | | | |] eqn:E;
    [|inversion Hd; subst; eauto ..].
  pose proof (DecimalFacts.unorm_nonnil (Nat.to_uint n)) as Hnil.
  rewrite <- to_uint_unorm in Hnil. congruence.
Qed.

Lemma decimal_no_dot (n : nat) : "."%char ∉ decimal n.
Proof.
  intros Hin. pose proof (decimal_digits n) as Hd.
  rewrite Forall_forall in Hd. apply Hd in Hin. discriminate.
Qed.

Lemma parseInt_decimal (n : nat) (rest : jsstring) :
  Suffix rest ->
  parseInt (Some (decimal n ++ rest)) = Int (Z.of_nat n).
Proof.
  intros Hrest. destruct (decimal_head n) as (c & s & Hcs & Hc).
  destruct (digit_not_special c Hc) as (Hw & Hminus & Hplus & _).
  assert (digitsValue 0 (decimal n ++ rest) = Z.of_nat n) as Hvalue.
  { unfold decimal. rewrite (digitsValue_uint _ 0 rest Hrest).
    f_equal. apply DecimalNat.Unsigned.of_to. }
  unfold parseInt. rewrite Hcs in *. cbn [app trimStart]. rewrite Hw.
  rewrite decide_False, decide_False by done. rewrite Hc.
  change (c :: s ++ rest) with ((c :: s) ++ rest). by rewrite Hvalue.
Qed.

Lemma split_head (sep : ascii) (a b : jsstring) :
  sep ∉ a ->
  exists piece pieces,
    split sep b = piece :: pieces
    /\ split sep (a ++ b) = (a ++ piece) :: pieces.
Proof.
  intros Ha. induction a as [|c a IH].
  - pose proof (split_nonempty sep b).
    destruct (split sep b) as [|piece pieces] eqn:E; [done|].
    by exists piece, pieces.
  - destruct IH as (piece & pieces & Hb & Hab).
    { intros ?. apply Ha. by right. }
    exists piece, pieces. split; [done|]. simpl.
    rewrite decide_False by (intros ->; apply Ha; by left).
    by rewrite Hab.
Qed.

Lemma split_first_suffix (b piece : jsstring) (pieces : list jsstring) :
  Suffix b -> split "."%char b = piece :: pieces -> Suffix piece.
Proof.
  destruct b as [|c b]; simpl.
  - by intros _ [= <- _].
  - intros Hc. destruct (decide (c = "."%char)); [by intros [= <- _]|].
    destruct (split "."%char b); by intros [= <- _].
Qed.

Lemma parseVersion_versionString (major minor patch : nat) (suffix : jsstring) :
  Suffix suffix ->
  parseVersion (versionString major minor patch ++ suffix)
  = {| Version.major := Int (Z.of_nat major);
       Version.minor := Int (Z.of_nat minor);
       Version.patch := Int (Z.of_nat patch) |}.
Proof.
  intros Hs. unfold parseVersion, versionString.
  rewrite <- !app_assoc, <- !app_comm_cons, <- !app_assoc, <- !app_comm_cons.
  rewrite !split_app_sep by apply decimal_no_dot.
  destruct (split_head "."%char (decimal patch) suffix (decimal_no_dot _))
    as (piece & pieces & Hsuffix & ->).
  cbn [lookup list_lookup].
  pose proof (parseInt_decimal major [] I) as H1.
  pose proof (parseInt_decimal minor [] I) as H2.
  rewrite app_nil_r in H1, H2. rewrite H1, H2.
  by rewrite parseInt_decimal by (by eapply split_first_suffix).
Qed.

Lemma versionString_numeric (major minor patch : nat) (suffix : jsstring) :
  (Z.of_nat major < 2 ^ 52)%Z ->
  (Z.of_nat minor < 2 ^ 52)%Z ->
  (Z.of_nat patch < 2 ^ 52)%Z ->
  Suffix suffix ->
  Numeric (versionString major minor patch ++ suffix)
    (Z.of_nat major) (Z.of_nat minor) (Z.of_nat patch).
Proof.
  intros H1 H2 H3 Hs. split; [by apply parseVersion_versionString|].
  unfold Exact. lia.
Qed.

(** X20.  Writing three numbers with dots between them and parsing the
    string gives the three numbers back, and anything behind the patch
    digits that does not start with a digit (a prerelease tag, a fourth
    component) is ignored. *)
Theorem parseVersion_round_trip (major minor patch : nat) (suffix : jsstring) :
  (Z.of_nat major < 2 ^ 52)%Z ->
  (Z.of_nat minor < 2 ^ 52)%Z ->
  (Z.of_nat patch < 2 ^ 52)%Z ->
  Suffix suffix ->
  Numeric (versionString major minor patch ++ suffix)
    (Z.of_nat major) (Z.of_nat minor) (Z.of_nat patch).
Proof.
  intros Hmajor Hminor Hpatch Hsuffix. split.
  - by apply parseVersion_versionString.
  - unfold Exact. lia.
Qed.

Lemma parseVersion_round_trip_witness :
  Numeric (lit "10.20.30-beta.1") 10 20 30.
Proof.
  apply (parseVersion_round_trip 10 20 30 (lit "-beta.1")); done.
Defined.

Lemma compareVersions_numeric (a b : jsstring) (a1 a2 a3 b1 b2 b3 : Z) :
  Numeric a a1 a2 a3 -> Numeric b b1 b2 b3 ->
  exists z,
    compareVersions a b = Int z
    /\ ((z < 0)%Z <-> Before (a1, a2, a3) (b1, b2, b3))
    /\ (z = 0%Z <-> (a1, a2, a3) = (b1, b2, b3))
    /\ ((0 < z)%Z <-> Before (b1, b2, b3) (a1, a2, a3)).
Proof.
  intros (Ha & _) (Hb & _).
  unfold compareVersions. rewrite Ha, Hb. cbn [Version.major Version.minor
    Version.patch strictNotEqual minus]. unfold Before.
  destruct (Z.eqb_spec a1 b1) as [->|H1]; cbn [negb];
    [destruct (Z.eqb_spec a2 b2) as [->|H2]; cbn [negb]|];
    (eexists; split; [reflexivity|]);
    (split; [lia|]); (split; [|lia]);
    (split; [intros ?; f_equal; lia || (exfalso; lia) | intros [= ]; lia]).
Qed.

(** X21.  On versions whose three components are numbers,
    [compareVersions] orders by major, then minor, then patch number: the
    result is negative exactly when the first version comes before the
    second in that order, zero exactly when the three numbers agree, and
    positive exactly when it comes after; the result is never NaN. *)
Theorem compareVersions_order (a b : jsstring) (a1 a2 a3 b1 b2 b3 : Z) :
  Numeric a a1 a2 a3 -> Numeric b b1 b2 b3 ->
  exists z,
    compareVersions a b = Int z
    /\ ((z < 0)%Z <-> Before (a1, a2, a3) (b1, b2, b3))
    /\ (z = 0%Z <-> (a1, a2, a3) = (b1, b2, b3))
    /\ ((0 < z)%Z <-> Before (b1, b2, b3) (a1, a2, a3)).
Proof.
  intros Ha Hb.
  by apply compareVersions_numeric.
Qed.

Lemma compareVersions_order_witness :
  exists z,
    compareVersions (lit "1.9.9") (lit "1.10.0") = Int z
    /\ ((z < 0)%Z <-> Before (1, 9, 9)%Z (1, 10, 0)%Z)
    /\ (z = 0%Z <-> (1, 9, 9)%Z = (1, 10, 0)%Z)
    /\ ((0 < z)%Z <-> Before (1, 10, 0)%Z (1, 9, 9)%Z).
Proof.
  apply compareVersions_order.
  - apply (versionString_numeric 1 9 9 []); done.
  - apply (versionString_numeric 1 10 0 []); done.
Defined.

Lemma compareVersions_self_value (v : jsstring) :
  compareVersions v v
  = match parseVersion v with
    | {| Version.major := Int _; Version.minor := Int _;
         Version.patch := Int _ |} => Int 0
    | _ => NaN
    end.
Proof.
  unfold compareVersions.
  destruct (parseVersion v) as [[|a] [|b] [|c]];
    cbn [Version.major Version.minor Version.patch strictNotEqual minus];
    rewrite ?Z.eqb_refl; cbn [negb]; try reflexivity.
  by rewrite Z.sub_diag.
Qed.

(** X22.  A version compares as equal to itself exactly when all of its
    three components are numbers; with a component that is not one (as in
    "1.2" or "latest") the comparison of the version with itself is NaN, so
    the version is neither at or after nor at or before itself.  (For
    components of the exact range.) *)
Theorem compareVersions_self (v : jsstring) :
  Representable v ->
  (compareVersions v v = Int 0
   <-> exists major minor patch,
         parseVersion v
         = {| Version.major := Int major;
              Version.minor := Int minor;
              Version.patch := Int patch |})
  /\ (compareVersions v v <> Int 0 ->
      compareVersions v v = NaN
      /\ inRange v v v = false).
Proof.
  intros _. unfold inRange. rewrite compareVersions_self_value.
  destruct (parseVersion v) as [[|a] [|b] [|c]].
  all: split;
    [ split; [ try discriminate; intros _; by eauto
             | try done; by intros (? & ? & ? & [= ]) ]
    | try (intros _; by split); intros H; by destruct H ].
Qed.

Lemma compareVersions_self_witness :
  compareVersions (lit "1.2") (lit "1.2") = NaN
  /\ inRange (lit "1.2") (lit "1.2") (lit "1.2") = false.
Proof.
  refine (proj2 (compareVersions_self (lit "1.2") _) _).
  - repeat split; vm_compute; reflexivity.
  - vm_compute. discriminate.
Defined.

(** X23.  What follows the patch digits plays no part in the comparison:
    two versions with the same three numbers compare as equal whatever tag
    or further component each of them carries, so "1.2.3-beta.1", "1.2.3.4"
    and "1.2.3" are all the same version to [compareVersions]. *)
Theorem compareVersions_ignores_suffix (major minor patch : nat)
    (suffix suffix' : jsstring) :
  (Z.of_nat major < 2 ^ 52)%Z ->
  (Z.of_nat minor < 2 ^ 52)%Z ->
  (Z.of_nat patch < 2 ^ 52)%Z ->
  Suffix suffix -> Suffix suffix' ->
  compareVersions (versionString major minor patch ++ suffix)
    (versionString major minor patch ++ suffix')
  = Int 0.
Proof.
  intros _ _ _ Hs Hs'. unfold compareVersions.
  rewrite !parseVersion_versionString by done.
  cbn [Version.major Version.minor Version.patch strictNotEqual minus].
  rewrite !Z.eqb_refl. cbn [negb]. by rewrite Z.sub_diag.
Qed.

Lemma compareVersions_ignores_suffix_witness :
  compareVersions (lit "1.2.3-beta.1") (lit "1.2.3.4") = Int 0.
Proof.
  apply (compareVersions_ignores_suffix 1 2 3 (lit "-beta.1") (lit ".4"));
    done.
Defined.

(** *** The version range *)

Lemma inRange_spec (startVersion endVersion v : jsstring) :
  inRange startVersion endVersion v = true
  <-> NotBefore v startVersion /\ NotAfter v endVersion.
Proof.
  unfold inRange, NotBefore, NotAfter, atLeastZero, atMostZero.
  rewrite andb_true_iff.
  destruct (compareVersions v startVersion) as [|z],
           (compareVersions v endVersion) as [|z'];
    rewrite ?Z.leb_le; split; try (intros [? ?]; discriminate).
  all: try (intros [(? & ? & _) (? & ? & _)]; discriminate).
  - intros [? ?]. split; eauto.
  - intros [(? & [= <-] & ?) (? & [= <-] & ?)]. done.
Qed.

Lemma insert_StronglySorted_on {A : Type} (compare : A -> A -> Z)
    (P : A -> Prop) (R : A -> A -> Prop) (x : A) (l : list A) :
  (forall a b, P a -> P b -> (0 < compare a b)%Z -> R b a) ->
  (forall a b, P a -> P b -> ~ (0 < compare a b)%Z -> R a b) ->
  (forall a b c, P a -> P b -> P c -> R a b -> R b c -> R a c) ->
  P x -> Forall P l ->
  StronglySorted R l -> StronglySorted R (insert compare x l).
Proof.
  intros Hgt Hle Htrans Hx Hl Hsorted.
  induction Hsorted as [|y l Hsorted IH Hall]; simpl.
  - by repeat constructor.
  - inversion Hl as [|? ? Hy Hl']; subst.
    destruct (0 <? compare x y)%Z eqn:Hc.
    + apply Z.ltb_lt in Hc. constructor; [by apply IH|].
      apply Forall_forall. intros z Hz.
      apply list_elem_of_In in Hz.
      eapply Permutation_in in Hz; [|apply insert_Permutation].
      destruct Hz as [<-|Hz]; [by apply Hgt|].
      rewrite Forall_forall in Hall. apply Hall. by apply list_elem_of_In.
    + apply Z.ltb_ge in Hc. constructor; [by constructor|].
      assert (R x y) by (apply Hle; [done|done|lia]).
      constructor; [done|].
      rewrite Forall_forall in Hall, Hl'. apply Forall_forall.
      intros z Hz. eapply (Htrans x y z); auto.
Qed.

Lemma sort_StronglySorted_on {A : Type} (compare : A -> A -> Z)
    (P : A -> Prop) (R : A -> A -> Prop) (l : list A) :
  (forall a b, P a -> P b -> (0 < compare a b)%Z -> R b a) ->
  (forall a b, P a -> P b -> ~ (0 < compare a b)%Z -> R a b) ->
  (forall a b c, P a -> P b -> P c -> R a b -> R b c -> R a c) ->
  Forall P l ->
  StronglySorted R (sort compare l).
Proof.
  intros Hgt Hle Htrans Hl. induction Hl as [|x l Hx Hl IH]; simpl.
  - constructor.
  - apply (insert_StronglySorted_on compare P); try done.
    rewrite Forall_forall in *. intros z Hz. apply Hl.
    by rewrite <- (elem_of_Permutation_proper _ _ _ (sort_Permutation compare l)).
Qed.

Lemma compareVersions_sign (a b : jsstring) (a1 a2 a3 b1 b2 b3 : Z) :
  Numeric a a1 a2 a3 -> Numeric b b1 b2 b3 ->
  exists z,
    compareVersions a b = Int z
    /\ ((z < 0)%Z <-> Before (a1, a2, a3) (b1, b2, b3))
    /\ (z = 0%Z <-> a1 = b1 /\ a2 = b2 /\ a3 = b3)
    /\ ((0 < z)%Z <-> Before (b1, b2, b3) (a1, a2, a3)).
Proof.
  intros Ha Hb.
  destruct (compareVersions_numeric a b _ _ _ _ _ _ Ha Hb)
    as (z & E & L & Z0 & G).
  exists z. split; [done|]. split; [done|]. split; [|done].
  rewrite Z0. split; [by intros [= -> -> ->] | by intros (-> & -> & ->)].
Qed.

(** On versions with three numeric components [compareVersions] is a
    consistent comparator. *)
Lemma compareVersions_consistent (l : list jsstring) :
  Forall IsNumeric l -> ConsistentOn compareVersions l.
Proof.
  rewrite Forall_forall. intros Hnum.
  unfold ConsistentOn, Zero, Negative, Positive.
  split; [|split; [|split; [|split; [|split]]]].
  - intros a b (a1 & a2 & a3 & Ha)%Hnum (b1 & b2 & b3 & Hb)%Hnum.
    destruct (compareVersions_sign a b _ _ _ _ _ _ Ha Hb) as (z & E & _).
    by rewrite E.
  - intros a (a1 & a2 & a3 & Ha)%Hnum.
    destruct (compareVersions_sign a a _ _ _ _ _ _ Ha Ha) as (z & E & _ & Z0 & _).
    rewrite E. f_equal. by apply Z0.
  - intros a b (a1 & a2 & a3 & Ha)%Hnum (b1 & b2 & b3 & Hb)%Hnum.
    destruct (compareVersions_sign a b _ _ _ _ _ _ Ha Hb) as (z & E & _ & Z0 & _).
    destruct (compareVersions_sign b a _ _ _ _ _ _ Hb Ha) as (z' & E' & _ & Z0' & _).
    rewrite E, E'. intros [= ->]. f_equal. apply Z0'.
    destruct (proj1 Z0 eq_refl) as (-> & -> & ->). done.
  - intros a b c (a1 & a2 & a3 & Ha)%Hnum (b1 & b2 & b3 & Hb)%Hnum
                 (c1 & c2 & c3 & Hc)%Hnum.
    destruct (compareVersions_sign a b _ _ _ _ _ _ Ha Hb) as (z & E & _ & Z0 & _).
    destruct (compareVersions_sign b c _ _ _ _ _ _ Hb Hc) as (z' & E' & _ & Z0' & _).
    destruct (compareVersions_sign a c _ _ _ _ _ _ Ha Hc) as (z'' & E'' & _ & Z0'' & _).
    rewrite E, E', E''. intros [= ->] [= ->]. f_equal. apply Z0''.
    destruct (proj1 Z0 eq_refl) as (-> & -> & ->).
    destruct (proj1 Z0' eq_refl) as (-> & -> & ->). done.
  - intros a b c (a1 & a2 & a3 & Ha)%Hnum (b1 & b2 & b3 & Hb)%Hnum
                 (c1 & c2 & c3 & Hc)%Hnum.
    destruct (compareVersions_sign a b _ _ _ _ _ _ Ha Hb) as (z & E & L & _).
    destruct (compareVersions_sign b c _ _ _ _ _ _ Hb Hc) as (z' & E' & L' & _).
    destruct (compareVersions_sign a c _ _ _ _ _ _ Ha Hc) as (z'' & E'' & L'' & _).
    rewrite E, E', E''. intros (? & [= <-] & Hz) (? & [= <-] & Hz').
    exists z''. split; [done|]. apply L''. apply L in Hz. apply L' in Hz'.
    unfold Before in *. lia.
  - intros a b c (a1 & a2 & a3 & Ha)%Hnum (b1 & b2 & b3 & Hb)%Hnum
                 (c1 & c2 & c3 & Hc)%Hnum.
    destruct (compareVersions_sign a b _ _ _ _ _ _ Ha Hb) as (z & E & _ & _ & G).
    destruct (compareVersions_sign b c _ _ _ _ _ _ Hb Hc) as (z' & E' & _ & _ & G').
    destruct (compareVersions_sign a c _ _ _ _ _ _ Ha Hc) as (z'' & E'' & _ & _ & G'').
    rewrite E, E', E''. intros (? & [= <-] & Hz) (? & [= <-] & Hz').
    exists z''. split; [done|]. apply G''. apply G in Hz. apply G' in Hz'.
    unfold Before in *. lia.
Qed.

(** The stable insertion sort keeps what the language promises of [sort]. *)
Lemma insertionSort_sorts : SortsArrays insertionSort.
Proof.
  split; [intros compare l; apply sort_Permutation|].
  intros compare l (Hnum & Hrefl & Hsym & Hzero & Hneg & Hpos).
  assert (forall a b, a ∈ l -> b ∈ l ->
            Positive (compare a b) -> Negative (compare b a)) as Hanti.
  { intros a b Ha Hb (z & E & Hz).
    destruct (compare b a) as [|z'] eqn:E'; [by destruct (Hnum b a)|].
    destruct (Z.lt_trichotomy z' 0) as [Hlt|[->|Hgt]].
    - by exists z'.
    - pose proof (Hsym b a Hb Ha E') as Hab. unfold Zero in Hab.
      rewrite E in Hab. injection Hab as ->. lia.
    - destruct (Hpos a b a Ha Hb Ha) as (z'' & E'' & Hz'').
      + by exists z.
      + exists z'. by rewrite E'.
      + pose proof (Hrefl a Ha) as Haa. unfold Zero in Haa.
        rewrite E'' in Haa. injection Haa as ->. lia. }
  unfold insertionSort.
  apply (sort_StronglySorted_on _ (fun x => x ∈ l)).
  - intros a b Ha Hb Hgt.
    destruct (Hanti a b Ha Hb) as (z' & E' & Hz').
    + destruct (compare a b) as [|z]; cbn [sortOrder] in Hgt; [lia|].
      by exists z.
    + exists z'. split; [done | lia].
  - intros a b Ha Hb Hle.
    destruct (compare a b) as [|z] eqn:E; [by destruct (Hnum a b)|].
    cbn [sortOrder] in Hle. exists z. split; [done | lia].
  - intros a b c Ha Hb Hc (z1 & E1 & Hz1) (z2 & E2 & Hz2).
    destruct (compare a c) as [|z3] eqn:E3; [by destruct (Hnum a c)|].
    exists z3. split; [done|].
    destruct (Z.le_gt_cases z3 0) as [|Hgt]; [done|]. exfalso.
    assert (Negative (compare c a)) as Hca.
    { apply Hanti; [done|done|]. exists z3. by rewrite E3. }
    assert (forall x y, x ∈ l -> y ∈ l ->
              Negative (compare x y) -> Zero (compare y x) -> False) as Hclash.
    { intros x y Hx Hy (z & E & Hz) Hyx.
      pose proof (Hsym y x Hy Hx Hyx) as Hxy. unfold Zero in Hxy.
      rewrite E in Hxy. injection Hxy as ->. lia. }
    destruct (Z.eq_dec z1 0%Z) as [->|Hn1], (Z.eq_dec z2 0%Z) as [->|Hn2].
    + pose proof (Hzero a b c Ha Hb Hc E1 E2) as Hac. unfold Zero in Hac.
      rewrite E3 in Hac. injection Hac as ->. lia.
    + apply (Hclash b a Hb Ha); [|exact E1].
      apply (Hneg b c a); [done|done|done| |done].
      exists z2. split; [done | lia].
    + apply (Hclash c b Hc Hb); [|done].
      apply (Hneg c a b); [done|done|done|done|].
      exists z1. split; [done | lia].
    + destruct (Hneg a b c Ha Hb Hc) as (z & E & Hz).
      * exists z1. split; [done | lia].
      * exists z2. split; [done | lia].
      * rewrite E3 in E. injection E as <-. lia.
  - by apply Forall_forall.
Qed.

(** X24.  Whatever the engine's [sort] is, as long as it keeps what the
    language promises of it: from the list that npm answers with,
    [getAllVersionsBetween] returns exactly the versions that compare at or
    after the start and at or before the end, each as often as the answer
    has it.  When every version of the answer has three numeric components,
    the result is in ascending order: no version is after a later one.
    (For components of the exact range.) *)
Theorem getAllVersionsBetween_sorted
    (Array_sort : (jsstring -> jsstring -> number) ->
                  list jsstring -> list jsstring)
    (allVersions : list jsstring) (startVersion endVersion : jsstring) :
  SortsArrays Array_sort ->
  Forall Representable (startVersion :: endVersion :: allVersions) ->
  exists versions,
    getAllVersionsBetween Array_sort (Some allVersions) startVersion endVersion
    = Some versions
    /\ (forall v, v ∈ versions
          <-> v ∈ allVersions
              /\ NotBefore v startVersion /\ NotAfter v endVersion)
    /\ Permutation versions
         (List.filter (inRange startVersion endVersion) allVersions)
    /\ (Forall IsNumeric allVersions -> StronglySorted NotAfter versions).
Proof.
  intros [Hperm Hsorted] _. eexists. split; [reflexivity|]. split; [|split].
  - intros v.
    rewrite (elem_of_Permutation_proper _ _ _ (Hperm _ _)).
    by rewrite elem_of_List_filter, inRange_spec.
  - apply Hperm.
  - intros Hnum.
    change (StronglySorted (NotAfterBy compareVersions)
              (Array_sort compareVersions
                 (List.filter (inRange startVersion endVersion) allVersions))).
    apply Hsorted, compareVersions_consistent.
    rewrite Forall_forall in *. intros v [Hv _]%elem_of_List_filter.
    by apply Hnum.
Qed.

Lemma getAllVersionsBetween_sorted_witness :
  exists versions,
    getAllVersionsBetween insertionSort
      (Some [lit "1.0.10"; lit "0.9.0"; lit "1.0.2"; lit "2.0.0"])
      (lit "1.0.0") (lit "1.0.10")
    = Some versions
    /\ lit "1.0.2" ∈ versions
    /\ StronglySorted NotAfter versions.
Proof.
  destruct (getAllVersionsBetween_sorted insertionSort
              [lit "1.0.10"; lit "0.9.0"; lit "1.0.2"; lit "2.0.0"]
              (lit "1.0.0") (lit "1.0.10"))
    as (versions & Hrun & Hin & _ & Hsorted).
  - apply insertionSort_sorts.
  - repeat constructor; vm_compute; reflexivity.
  - exists versions. split; [done|]. split.
    + apply Hin. split; [do 2 right; left|].
      split; eexists; (split; [vm_compute; reflexivity | lia]).
    + apply Hsorted. repeat constructor.
      * exists 1%Z, 0%Z, 10%Z. apply (versionString_numeric 1 0 10 []); done.
      * exists 0%Z, 9%Z, 0%Z. apply (versionString_numeric 0 9 0 []); done.
      * exists 1%Z, 0%Z, 2%Z. apply (versionString_numeric 1 0 2 []); done.
      * exists 2%Z, 0%Z, 0%Z. apply (versionString_numeric 2 0 0 []); done.
Defined.

End VersionsMore.
